(** * gucci.py: the catalog crawler, embedded and verified

    A shallow embedding of [src/gucci.py]: the JSON values the crawler
    handles, Python's [str] and [dict] primitives it calls, the product
    normalizer ([process_url], [deduplicate_images], [process_images]), the
    detail enricher ([get_product_details]), the pagination walker
    ([get_products]), the store ([save], [run]) and the image downloader
    ([download], [download_images]).

    Exceptions are values of [exn]; every function that can raise returns a
    [result].  Network and filesystem are explicit: a [world] fixes what
    each URL answers, and the crawler threads a [state] holding the store
    and the list of requests it has issued. *)

From Stdlib Require Import ZArith Ascii DecimalString.
From Stdlib Require String.
From stdpp Require Import base option list strings gmap fin_maps.

Local Open Scope Z_scope.

(* ===================================================================== *)
(** ** Python strings *)
(* ===================================================================== *)

Module PyStr.

(** [s.split(sep)] for a one-character separator, the only way the
    source calls it ([split("/")], [split("-")]).  The result is never
    empty: [("").split("/") = [""]]. *)
Fixpoint split (sep : ascii) (s : string) : list string :=
  match s with
  | EmptyString => [EmptyString]
  | String c s' =>
      if Ascii.eqb c sep then EmptyString :: split sep s'
      else match split sep s' with
           | [] => [String c EmptyString]
           | w :: ws => String c w :: ws
           end
  end.

(** [c in s] for a one-character needle. *)
Fixpoint contains (c : ascii) (s : string) : bool :=
  match s with
  | EmptyString => false
  | String c' s' => Ascii.eqb c' c || contains c s'
  end.

(** [s.startswith(p)]. *)
Fixpoint startswith (p s : string) : bool :=
  match p, s with
  | EmptyString, _ => true
  | String a p', String b s' => Ascii.eqb a b && startswith p' s'
  | String _ _, EmptyString => false
  end.

(** [s.endswith(p)], through the reversed strings. *)
Definition endswith (p s : string) : bool :=
  startswith (String.rev p) (String.rev s).

(** [s.replace("", new)]: [new] before every character and at the end. *)
Fixpoint interleave (new s : string) : string :=
  match s with
  | EmptyString => new
  | String c s' => new +:+ String c (interleave new s')
  end.

(** The left-to-right scan of [s.replace(old, new)] for a non-empty
    [old]: [skip] counts the characters of a match still to be consumed. *)
Fixpoint replace_scan (old new : string) (skip : nat) (s : string) : string :=
  match s with
  | EmptyString => EmptyString
  | String c s' =>
      match skip with
      | S k => replace_scan old new k s'
      | O =>
          if startswith old s
          then new +:+ replace_scan old new (Nat.pred (String.length old)) s'
          else String c (replace_scan old new O s')
      end
  end.

(** [s.replace(old, new)]: every non-overlapping occurrence, leftmost
    first. *)
Definition replace (s old new : string) : string :=
  match old with
  | EmptyString => interleave new s
  | String _ _ => replace_scan old new O s
  end.

(** The positions at which [old] occurs in [s] (overlapping ones too). *)
Fixpoint occurrences_from (old : string) (i : nat) (s : string) : list nat :=
  (if startswith old s then [i] else []) ++
  match s with
  | EmptyString => []
  | String _ s' => occurrences_from old (S i) s'
  end.

Definition occurrences (old s : string) : list nat := occurrences_from old O s.

(** [str(n)] for an integer. *)
Definition of_Z (n : Z) : string := NilZero.string_of_int (Z.to_int n).

End PyStr.

(* ===================================================================== *)
(** ** Exceptions and results *)
(* ===================================================================== *)

(** The exceptions the crawler can let escape.  [Timeout] is not a Python
    exception: it is the outcome of a model run whose fuel ran out. *)
Inductive exn :=
| KeyError (key : string)
| IndexError
| TypeError
| AttributeError
| OSError.

Inductive result (A : Type) :=
| Ok (a : A)
| Raise (e : exn)
| Timeout.
Arguments Ok {A} a.
Arguments Raise {A} e.
Arguments Timeout {A}.

Definition bind {A B} (r : result A) (k : A -> result B) : result B :=
  match r with
  | Ok a => k a
  | Raise e => Raise e
  | Timeout => Timeout
  end.

Notation "'let!' x ':=' r 'in' k" := (bind r (fun x => k))
  (at level 10, x name, r at level 100, k at level 200).

(** [[f(x) for x in l]] with an [f] that may raise: left to right, the
    first exception wins. *)
Fixpoint mapM {A B} (f : A -> result B) (l : list A) : result (list B) :=
  match l with
  | [] => Ok []
  | x :: l' => let! y := f x in let! ys := mapM f l' in Ok (y :: ys)
  end.

(* ===================================================================== *)
(** ** Constants of the module *)
(* ===================================================================== *)

Definition image_style : string := "DarkGray_Center_0_0_2400x2400".

Definition slash : ascii := "/"%char.
Definition dash : ascii := "-"%char.

(* ===================================================================== *)
(** ** Product normalizer: URL rewrite *)
(* ===================================================================== *)

(** [process_url]: [url.split("/")[4]] raises [IndexError] on fewer than
    five segments; the prefix ["https:"] is unconditional. *)
Definition process_url (url : string) : result string :=
  match PyStr.split slash url !! 4%nat with
  | None => Raise IndexError
  | Some style => Ok ("https:" +:+ PyStr.replace url style image_style)
  end.


(* ===================================================================== *)
(** ** JSON values and Python dicts *)
(* ===================================================================== *)

(** What [json.load] and [response.json()] produce.  A [dict] keeps its
    insertion order, so it is an association list; the operations below
    keep its keys distinct.  Floats do not occur in any field the crawler
    inspects and are left out. *)
#[warnings="-register-all"] Inductive json :=
| JNull
| JBool (b : bool)
| JNum (n : Z)
| JStr (s : string)
| JList (l : list json)
| JObj (d : list (string * json)).

Abbreviation dict := (list (string * json)).

Module Dict.

(** [d.get(k)] as an option; [None] is the absent key. *)
Fixpoint lookup (k : string) (d : dict) : option json :=
  match d with
  | [] => None
  | (k', v) :: d' => if String.eqb k' k then Some v else lookup k d'
  end.

(** [k in d]. *)
Definition mem (k : string) (d : dict) : bool :=
  match lookup k d with Some _ => true | None => false end.

(** [d[k] = v]: an existing key keeps its position, a new one goes last. *)
Fixpoint set (k : string) (v : json) (d : dict) : dict :=
  match d with
  | [] => [(k, v)]
  | (k', v') :: d' =>
      if String.eqb k' k then (k', v) :: d' else (k', v') :: set k v d'
  end.

(** [d.pop(k, None)]. *)
Fixpoint pop (k : string) (d : dict) : dict :=
  match d with
  | [] => []
  | (k', v') :: d' => if String.eqb k' k then d' else (k', v') :: pop k d'
  end.

(** [d.update(other)]. *)
Definition update (d other : dict) : dict :=
  fold_left (fun acc kv => set (fst kv) (snd kv) acc) other d.

(** [for key in keys: d.pop(key, None)]. *)
Definition pop_all (keys : list string) (d : dict) : dict :=
  fold_left (fun acc k => pop k acc) keys d.

End Dict.

(** [v[k]] for a string key [k]: a [dict] looks the key up, everything else
    refuses a string subscript. *)
Definition subscript (v : json) (k : string) : result json :=
  match v with
  | JObj d =>
      match Dict.lookup k d with
      | Some x => Ok x
      | None => Raise (KeyError k)
      end
  | _ => Raise TypeError
  end.

(** [len(v)]. *)
Definition py_len (v : json) : result nat :=
  match v with
  | JList l => Ok (length l)
  | JObj d => Ok (length d)
  | JStr s => Ok (String.length s)
  | _ => Raise TypeError
  end.

(** The elements [for x in v] walks through: a dict yields its keys, a
    string its characters. *)
Fixpoint chars (s : string) : list json :=
  match s with
  | EmptyString => []
  | String c s' => JStr (String c EmptyString) :: chars s'
  end.

Definition py_iter (v : json) : result (list json) :=
  match v with
  | JList l => Ok l
  | JObj d => Ok (map (fun kv => JStr (fst kv)) d)
  | JStr s => Ok (chars s)
  | _ => Raise TypeError
  end.

(** [page < v]: [bool] is an [int] in Python, every other kind of value
    refuses the comparison. *)
Definition int_lt (page : Z) (v : json) : result bool :=
  match v with
  | JNum n => Ok (page <? n)
  | JBool b => Ok (page <? (if b then 1 else 0))
  | _ => Raise TypeError
  end.

(** A value used as a string receiver ([url.split], [image.split]). *)
Definition as_str (v : json) : result string :=
  match v with
  | JStr s => Ok s
  | _ => Raise AttributeError
  end.

(** [v == s] for a string [s]. *)
Definition eq_str (v : json) (s : string) : bool :=
  match v with
  | JStr s' => String.eqb s' s
  | _ => false
  end.

(* ===================================================================== *)
(** ** Product normalizer: deduplication and image collection *)
(* ===================================================================== *)

(** The name under which [deduplicate_images] remembers an image. *)
Definition derived_filename (image : string) : string :=
  let filename := List.last (PyStr.split slash image) EmptyString in
  if PyStr.contains dash filename
  then List.hd EmptyString (PyStr.split dash filename) +:+ ".jpg"
  else filename.

(** The loop of [deduplicate_images].  [filenames] is the set of names seen;
    [result] is a set too, kept here as the list of its elements in the
    order they were added (an image is added only under a new filename, so
    never twice). *)
Fixpoint dedup_loop (images : list string) (filenames : gset string)
    (result : list string) : list string :=
  match images with
  | [] => result
  | image :: rest =>
      let filename := derived_filename image in
      if decide (filename ∈ filenames) then dedup_loop rest filenames result
      else dedup_loop rest ({[filename]} ∪ filenames) (result ++ [image])
  end.

Definition dedup_kept (images : list string) : list string :=
  dedup_loop images ∅ [].

(* ===================================================================== *)
(** ** The world outside: HTTP, set iteration order, file permissions *)
(* ===================================================================== *)

(** A [requests.Response]: [ok], the outcome of [.json()] ([None] when the
    body is not JSON) and the chunks of [.iter_content]. *)
Record response := {
  ok : bool;
  body_json : option json;
  iter_content : list string;
}.

(** Every request is answered (a transport exception is outside the
    model).  [set_order] is the order in which [list(s)] enumerates a set
    built by adding the given elements in the given order: Python fixes it
    per process, the source relies on none. *)
Record world := {
  requests_get : string -> response;
  set_order : list string -> list string;
  writable : string -> bool;
}.

(** [deduplicate_images]: [list(result)]. *)
Definition deduplicate_images (w : world) (images : list string) : list string :=
  set_order w (dedup_kept images).

(** [get]: the parsed body if the response is ok and is a dict or a list. *)
Definition get (w : world) (url : string) : option json :=
  let r := requests_get w url in
  if negb (ok r) then None
  else match body_json r with
       | Some (JObj d) => Some (JObj d)
       | Some (JList l) => Some (JList l)
       | _ => None
       end.

(** [process_images]. *)
Definition process_images (w : world) (product : json) : result (list string) :=
  let! primary_image := subscript product "primaryImage" in
  let! alternate_gallery_images := subscript product "alternateGalleryImages" in
  let! alternate_image := subscript product "alternateImage" in
  let! gallery := py_iter alternate_gallery_images in
  let! srcs := mapM (fun image => subscript image "src") gallery in
  let! p := subscript primary_image "src" in
  let! a := subscript alternate_image "src" in
  let images := srcs ++ [p; a] in
  let! urls := mapM (fun image => let! url := as_str image in process_url url) images in
  Ok (deduplicate_images w urls).

(* ===================================================================== *)
(** ** The crawler object and its state *)
(* ===================================================================== *)

(** The fields [Gucci.__init__] fixes for the life of the object. *)
Record gucci := {
  categories : list string;
  lang_code : list string;
  language : string;
  product_details : bool;
  gucci_path : string;
}.

(** What a run changes: the store [self.products], with [initial_count]
    beside it, and the URLs handed to [requests.get] so far (oldest
    first). *)
Record state := {
  products : dict;
  initial_count : nat;
  requests : list string;
}.

Definition sent (url : string) (st : state) : state :=
  {| products := products st;
     initial_count := initial_count st;
     requests := requests st ++ [url] |}.

Definition store (code : string) (product : json) (st : state) : state :=
  {| products := Dict.set code product (products st);
     initial_count := initial_count st;
     requests := requests st |}.

(** [len(self.products) - self.initial_count], the number [save] reports. *)
Definition delta (st : state) : Z :=
  Z.of_nat (length (products st)) - Z.of_nat (initial_count st).

Definition products_url (lang category : string) (page : Z) : string :=
  "https://www.gucci.com/" +:+ lang +:+ "/c/productgrid?categoryCode="
    +:+ category +:+ "&show=All&page=" +:+ PyStr.of_Z page.

Definition product_details_url (product_code : string) : string :=
  "https://prod-catalog-api.guccidigital.io/v1/products/" +:+ product_code.

(* ===================================================================== *)
(** ** Product detail enricher *)
(* ===================================================================== *)

Definition details_drop_keys : list string :=
  [ "assortments"; "availability"; "categories"; "status"; "variants";
    "project"; "prices"; "lastUpdated"; "exotic"; "genders"; "materialCare";
    "styleCode"; "language"; "madeIn"; "translations" ].

Definition rename : list (string * string) :=
  [ ("editorialDescription", "editorial");
    ("variationDescription", "variation");
    ("departmentDescription", "department");
    ("subDepartmentDescription", "subDepartment");
    ("seasonDescription", "season");
    ("detailParts", "details") ].

(** [rename.get(k, k)]. *)
Fixpoint rename_get (table : list (string * string)) (k : string) : string :=
  match table with
  | [] => k
  | (old, new) :: table' => if String.eqb old k then new else rename_get table' k
  end.

Definition in_list (k : string) (l : list string) : bool :=
  existsb (String.eqb k) l.

(** One turn of [for translation in translations]. *)
Definition merge_translation (target : string) (data : dict) (translation : json)
    : result dict :=
  match translation with
  | JObj t =>
      let lang := default (JStr EmptyString) (Dict.lookup "language" t) in
      if eq_str lang target then Ok (Dict.update data t) else Ok data
  | _ => Raise AttributeError
  end.

Fixpoint merge_translations (target : string) (data : dict) (ts : list json)
    : result dict :=
  match ts with
  | [] => Ok data
  | t :: ts' =>
      let! data' := merge_translation target data t in
      merge_translations target data' ts'
  end.

(** [{rename.get(k, k): v for k, v in data.items() if k not in drop_keys}]. *)
Definition rename_and_drop (data : dict) : dict :=
  fold_left
    (fun acc kv =>
       if in_list (fst kv) details_drop_keys then acc
       else Dict.set (rename_get rename (fst kv)) (snd kv) acc)
    data [].

(** The body of [get_product_details] once the detail record is there. *)
Definition enrich (target : string) (data : json) : result dict :=
  match data with
  | JObj d =>
      let translations := default (JList []) (Dict.lookup "translations" d) in
      let! ts := py_iter translations in
      let! merged := merge_translations target d ts in
      Ok (Dict.pop_all (map fst rename) (rename_and_drop merged))
  | _ => Raise AttributeError
  end.

Definition get_product_details (w : world) (g : gucci) (product_code : string)
    (st : state) : result (dict * state) :=
  let url := product_details_url product_code in
  let st := sent url st in
  match get w url with
  | None => Ok ([], st)
  | Some data => let! d := enrich (language g) data in Ok (d, st)
  end.

(* ===================================================================== *)
(** ** Pagination walker *)
(* ===================================================================== *)

Definition listing_drop_keys : list string :=
  [ "showOutOfStockLabel"; "showAvailableInStoreOnlyLabel";
    "videoBackgroundImage"; "zoomImagePrimary"; "zoomImageAlternate";
    "filterType"; "nonTransactionalWebSite"; "isDiyProduct"; "inStockEntry";
    "inStoreStockEntry"; "inStoreStockRegionalEntry"; "visibleWithoutStock";
    "showSavedItemIcon"; "type"; "saleType"; "fullPrice"; "position";
    "isFavorite"; "isOnlineExclusive"; "isRegionalOnlineExclusive";
    "regionalOnlineExclusiveMsg"; "isExclusiveSale"; "label"; "imgBase";
    "productName"; "primaryImage"; "alternateImage"; "alternateGalleryImages" ].

(** The product code as a key of the store.  The source declares it a
    string ([cast(str, ...)], [dict[str, dict]]) and the embedding keeps
    the store keyed by strings: a list or dict is unhashable in Python too,
    and a number, boolean or null code, which Python would accept as a key,
    is refused here the same way. *)
Definition as_key (v : json) : result string :=
  match v with
  | JStr s => Ok s
  | _ => Raise TypeError
  end.

(** The body of [for _, product in enumerate(products["items"])]. *)
Definition process_product (w : world) (g : gucci) (st : state) (product : json)
    : result state :=
  let! code := subscript product "productCode" in
  let! product_code := as_key code in
  if Dict.mem product_code (products st) then Ok st
  else
    let! images := process_images w product in
    match product with
    | JObj d =>
        let d := Dict.set "images" (JList (map JStr images)) d in
        let d := Dict.pop_all listing_drop_keys d in
        if product_details g then
          let! r := get_product_details w g product_code st in
          Ok (store product_code (JObj (Dict.update d (fst r))) (snd r))
        else Ok (store product_code (JObj d) st)
    | _ => Raise TypeError
    end.

Fixpoint process_products (w : world) (g : gucci) (st : state) (items : list json)
    : result state :=
  match items with
  | [] => Ok st
  | product :: rest =>
      let! st' := process_product w g st product in
      process_products w g st' rest
  end.

(** The [while page < number_of_pages] loop; one unit of [fuel] per turn.
    [number_of_pages] is kept as the value read from the response: the
    comparison is what may refuse it, at the next loop test. *)
Fixpoint walk (fuel : nat) (w : world) (g : gucci) (category_code lang : string)
    (page : Z) (number_of_pages : json) (st : state) : result state :=
  let! more := int_lt page number_of_pages in
  if negb more then Ok st
  else
    match fuel with
    | O => Timeout
    | S fuel' =>
        let url := products_url lang category_code page in
        let st := sent url st in
        match get w url with
        | None => Ok st
        | Some data =>
            let! number_of_pages := subscript data "numberOfPages" in
            let! listing := subscript data "products" in
            let! items := subscript listing "items" in
            let! count := py_len items in
            if Nat.eqb count 0 then Ok st
            else
              let! elements := py_iter items in
              let! st' := process_products w g st elements in
              walk fuel' w g category_code lang (page + 1) number_of_pages st'
        end
    end.

Definition get_products (fuel : nat) (w : world) (g : gucci)
    (category_code lang : string) (st : state) : result state :=
  if negb (in_list category_code (categories g)) then Ok st
  else walk fuel w g category_code lang 0 (JNum 1) st.

(* ===================================================================== *)
(** ** Filesystem, catalog store persistence and the crawl run *)
(* ===================================================================== *)

(** The files the program touches.  A catalog file is held as the mapping
    [json.dump] wrote into it (the encoding itself is not modelled; on
    dicts with string keys and the values of [json] it loses nothing).  An
    image directory is named by its product code and holds plain files, name
    to content. *)
Record filesystem := {
  catalogs : gmap string dict;
  image_dirs : gmap string (gmap string string);
}.

Definition write_catalog (path : string) (d : dict) (fs : filesystem) : filesystem :=
  {| catalogs := <[path := d]> (catalogs fs); image_dirs := image_dirs fs |}.


(** [Gucci.save]: [open(gucci_path, "w")] raises when the path cannot be
    written; nothing catches it. *)
Definition save (w : world) (g : gucci) (save_path : option string)
    (st : state) (fs : filesystem) : result filesystem :=
  let path := default (gucci_path g) save_path in
  if writable w path then Ok (write_catalog path (products st) fs)
  else Raise OSError.

(** The two nested [for] loops of [Gucci.run]. *)
Fixpoint crawl_categories (fuel : nat) (w : world) (g : gucci) (lang : string)
    (cats : list string) (st : state) : result state :=
  match cats with
  | [] => Ok st
  | category :: rest =>
      let! st' := get_products fuel w g category lang st in
      crawl_categories fuel w g lang rest st'
  end.

Fixpoint crawl (fuel : nat) (w : world) (g : gucci) (langs : list string)
    (st : state) : result state :=
  match langs with
  | [] => Ok st
  | lang :: rest =>
      let! st' := crawl_categories fuel w g lang (categories g) st in
      crawl fuel w g rest st'
  end.

(** [Gucci.run]: crawl, then save.  [fuel] bounds the page loop of each
    [get_products] call. *)
Definition run (fuel : nat) (w : world) (g : gucci) (save_path : option string)
    (st : state) (fs : filesystem) : result (state * filesystem) :=
  let! st' := crawl fuel w g (lang_code g) st in
  let! fs' := save w g save_path st' fs in
  Ok (st', fs').

(* ===================================================================== *)
(** ** Image downloader *)
(* ===================================================================== *)

(** A path [product_dir / filename].  Joining an empty name or ["."] gives
    the directory itself, [".."] its parent. *)
Definition names_directory (filename : string) : bool :=
  String.eqb filename "" || String.eqb filename "." || String.eqb filename "..".

Definition path_exists (fs : filesystem) (dir filename : string) : bool :=
  match image_dirs fs !! dir with
  | None => false
  | Some files =>
      names_directory filename || bool_decide (is_Some (files !! filename))
  end.

Definition write_file (dir filename content : string) (fs : filesystem) : filesystem :=
  {| catalogs := catalogs fs;
     image_dirs := alter (insert filename content) dir (image_dirs fs) |}.

(** [download(url, path)]: returns the filesystem and the requests it
    issued.  [open(path, "wb")] in a directory that does not exist
    raises. *)
Definition download (w : world) (url dir filename : string) (fs : filesystem)
    : result (filesystem * list string) :=
  if path_exists fs dir filename then Ok (fs, [])
  else
    let r := requests_get w url in
    if negb (ok r) then Ok (fs, [url])
    else
      match image_dirs fs !! dir with
      | None => Raise OSError
      | Some _ =>
          Ok (write_file dir filename (String.concat "" (iter_content r)) fs, [url])
      end.

(** [product_dir.mkdir(parents=True, exist_ok=True)]. *)
Definition mkdir (dir : string) (fs : filesystem) : filesystem :=
  match image_dirs fs !! dir with
  | Some _ => fs
  | None => {| catalogs := catalogs fs; image_dirs := <[dir := ∅]> (image_dirs fs) |}
  end.

(** [product_dir.glob("*.jpg")]: the entries whose name ends in [.jpg]. *)
Definition glob_jpg (fs : filesystem) (dir : string) : list string :=
  match image_dirs fs !! dir with
  | None => []
  | Some files =>
      List.filter (PyStr.endswith ".jpg") (map fst (map_to_list files))
  end.

Definition dir_exists (fs : filesystem) (dir : string) : bool :=
  bool_decide (is_Some (image_dirs fs !! dir)).

(** Every entry of a directory, of any name. *)
Definition dir_entries (fs : filesystem) (dir : string) : list string :=
  match image_dirs fs !! dir with
  | None => []
  | Some files => map fst (map_to_list files)
  end.

(** [for idx, image in enumerate(images)]. *)
Fixpoint download_each (w : world) (dir : string) (images : list json)
    (fs : filesystem) : result (filesystem * list string) :=
  match images with
  | [] => Ok (fs, [])
  | image :: rest =>
      let! url := as_str image in
      let filename := List.last (PyStr.split slash url) EmptyString in
      let! r := download w url dir filename fs in
      let! r' := download_each w dir rest (fst r) in
      Ok (fst r', snd r ++ snd r')
  end.

(** [self.gucci_root / product_code] needs a string. *)
Definition as_path (v : json) : result string :=
  match v with
  | JStr s => Ok s
  | _ => Raise TypeError
  end.

(** The body of the loop of [download_images], for one stored product. *)
Definition download_product (w : world) (product : json) (fs : filesystem)
    : result (filesystem * list string) :=
  let! code := subscript product "productCode" in
  let! product_code := as_path code in
  let fs := mkdir product_code fs in
  let! images := subscript product "images" in
  let! number_of_images := py_len images in
  if dir_exists fs product_code
     && Nat.eqb (length (glob_jpg fs product_code)) number_of_images
  then Ok (fs, [])
  else
    let! elements := py_iter images in
    download_each w product_code elements fs.

Fixpoint download_images (w : world) (products : dict) (fs : filesystem)
    : result (filesystem * list string) :=
  match products with
  | [] => Ok (fs, [])
  | (_, product) :: rest =>
      let! r := download_product w product fs in
      let! r' := download_images w rest (fst r) in
      Ok (fst r', snd r ++ snd r')
  end.

(* ===================================================================== *)
(** ** Predicates of the statements *)
(* ===================================================================== *)

(** A dict has each key once. *)
Definition dict_wf (d : dict) : Prop := NoDup (map fst d).

(** The value the comprehension of [rename_and_drop] leaves under [k']: the
    one of the last item of [data] that is kept and renamed to [k']. *)
Fixpoint last_renamed (k' : string) (data : dict) : option json :=
  match data with
  | [] => None
  | (k, v) :: rest =>
      match last_renamed k' rest with
      | Some x => Some x
      | None =>
          if negb (in_list k details_drop_keys) && String.eqb (rename_get rename k) k'
          then Some v else None
      end
  end.

(** A translation entry in another language than the target: the loop of
    [get_product_details] passes it by. *)
Definition other_language (target : string) (translation : json) : Prop :=
  ∃ t, translation = JObj t
       ∧ eq_str (default (JStr EmptyString) (Dict.lookup "language" t)) target
         = false.

(** The listing endpoint lives on [www.gucci.com]; the detail endpoint does
    not.  [page_requests] are the page fetches among the requests sent. *)
Definition is_listing_url (url : string) : bool :=
  PyStr.startswith "https://www.gucci.com/" url.

Definition page_requests (st : state) : list string :=
  List.filter is_listing_url (requests st).

(** The page of a listing: the response is there and has the keys the
    walker reads, [numberOfPages] and [products.items]. *)
Definition page_returns (w : world) (lang category : string) (page : Z)
    (number_of_pages items : json) : Prop :=
  ∃ data listing,
    get w (products_url lang category page) = Some data
    ∧ subscript data "numberOfPages" = Ok number_of_pages
    ∧ subscript data "products" = Ok listing
    ∧ subscript listing "items" = Ok items.





(** The three image fields [process_images] reads, in the order it reads
    them. *)
Definition listing_image_keys : list string :=
  ["primaryImage"; "alternateGalleryImages"; "alternateImage"].

(* ===================================================================== *)
(** ** Sample worlds, records and disks *)
(* ===================================================================== *)

(** An unsuccessful response. *)
Definition no_response : response :=
  {| ok := false; body_json := None; iter_content := [] |}.

(** A world that answers nothing, enumerates a set in insertion order and
    lets every path be written. *)
Definition quiet_world : world :=
  {| requests_get := fun _ => no_response;
     set_order := fun l => l;
     writable := fun _ => true |}.

(** A successful response with a JSON body. *)
Definition json_response (v : json) : response :=
  {| ok := true; body_json := Some v; iter_content := [] |}.

(** A world whose server answers the listed URLs with the given JSON
    bodies and refuses every other request. *)
Definition serving (table : list (string * json)) : world :=
  {| requests_get := fun url =>
       match Dict.lookup url table with
       | Some v => json_response v
       | None => no_response
       end;
     set_order := fun l => l;
     writable := fun _ => true |}.

(** A successful response that streams the given chunks. *)
Definition image_response (chunks : list string) : response :=
  {| ok := true; body_json := None; iter_content := chunks |}.

(** A world that serves the same image for every URL. *)
Definition image_server : world :=
  {| requests_get := fun _ => image_response ["JF"; "IF"];
     set_order := fun l => l;
     writable := fun _ => true |}.

(** A world in which no path can be written. *)
Definition read_only_world : world :=
  {| requests_get := fun _ => no_response;
     set_order := fun l => l;
     writable := fun _ => false |}.

(** The defaults of the command line, and a crawler of the [men] category
    with product details on. *)
Definition english : gucci :=
  {| categories := ["women"; "men"; "jewelry-watches"];
     lang_code := ["us/en"];
     language := "en";
     product_details := false;
     gucci_path := "gucci.json" |}.

Definition men_with_details : gucci :=
  {| categories := ["men"];
     lang_code := ["us/en"];
     language := "en";
     product_details := true;
     gucci_path := "gucci.json" |}.

Definition empty_state : state :=
  {| products := []; initial_count := 0; requests := [] |}.

(** A store that holds [P1]. *)
Definition store_with_P1 : state :=
  {| products := [("P1", JObj [("productCode", JStr "P1"); ("images", JList [])])];
     initial_count := 1;
     requests := [] |}.

(** Disks: empty, with a directory for [P1] holding one file that is not
    an image, and with the image of [P1] already there. *)
Definition empty_disk : filesystem := {| catalogs := ∅; image_dirs := ∅ |}.

Definition disk_with_notes : filesystem :=
  {| catalogs := ∅;
     image_dirs := {[ "P1" := {[ "notes.txt" := "to do" ]} ]} |}.

Definition disk_with_image : filesystem :=
  {| catalogs := ∅;
     image_dirs := {[ "P1" := {[ "a.jpg" := "JFIF" ]} ]} |}.

(** An English translation entry, a detail record that carries both
    [editorialDescription] and a literal [editorial] field, and one that
    carries only the former. *)
Definition translated : dict :=
  [ ("language", JStr "en"); ("editorialDescription", JStr "B") ].

Definition detail_with_both_names : dict :=
  [ ("editorialDescription", JStr "A");
    ("editorial", JStr "C");
    ("translations", JList [JObj translated]) ].

Definition detail_plain : dict :=
  [ ("editorialDescription", JStr "A");
    ("status", JStr "live");
    ("translations", JList [JObj translated]) ].

(** A stored product with one image. *)
Definition one_image_product : dict :=
  [ ("productCode", JStr "P1");
    ("images", JList [JStr "https://h/m/DarkGray_Center_0_0_2400x2400/l/a.jpg"]) ].

(** A listing item for [P1] with no image field at all. *)
Definition bare_item : dict := [("productCode", JStr "P1")].

(** A small catalog: three pages of the [men] listing, and the detail
    record of one product. *)
Definition image (name : string) : json :=
  JObj [("src", JStr ("//media.example.com/is/Style_Center/lg/" +:+ name))].

Definition listing_item (code : string) : json :=
  JObj [ ("productCode", JStr code);
         ("productName", JStr "Bag");
         ("primaryImage", image (code +:+ "-1.jpg"));
         ("alternateImage", image (code +:+ "-2.jpg"));
         ("alternateGalleryImages", JList [image (code +:+ "_side.jpg")]) ].

Definition listing_page (pages : Z) (items : list json) : json :=
  JObj [ ("numberOfPages", JNum pages);
         ("products", JObj [("items", JList items)]) ].

Definition catalog : world :=
  serving
    [ (products_url "us/en" "men" 0,
       listing_page 3 [listing_item "P0"; listing_item "P1"]);
      (products_url "us/en" "men" 1, listing_page 3 [listing_item "P2"]);
      (products_url "us/en" "men" 2, listing_page 3 [listing_item "P3"]);
      (product_details_url "P0", JObj detail_plain) ].

(* ===================================================================== *)
(** ** Readings of the specification that the code does not follow *)
(* ===================================================================== *)

(** The reading of the rewrite rule under which a scheme is added only to
    a scheme-relative URL: one that starts with [https:] would come back
    with its style segment replaced and nothing put in front. *)
Definition scheme_kept_when_present : Prop :=
  ∀ url style,
    PyStr.startswith "https:" url = true →
    PyStr.split slash url !! 4%nat = Some style →
    process_url url = Ok (PyStr.replace url style image_style).

(** The dedup law read over every input list: of two URLs ending in
    [A-1.jpg] and [A-2.jpg], exactly one is in the output. *)
Definition exactly_one_of_pair_kept : Prop :=
  ∀ (w : world) (images : list string) (d1 d2 A : string),
    (∀ l, set_order w l ≡ₚ l) →
    PyStr.contains slash A = false →
    let u1 := d1 +:+ "/" +:+ A +:+ "-1.jpg" in
    let u2 := d2 +:+ "/" +:+ A +:+ "-2.jpg" in
    u1 ∈ images → u2 ∈ images →
    let out := deduplicate_images w images in
    (u1 ∈ out ∧ u2 ∉ out) ∨ (u2 ∈ out ∧ u1 ∉ out).

(** The merge precedence read over every detail record: whatever else the
    record holds, the translation's [editorialDescription] ends up under
    [editorial]. *)
Definition translation_always_wins : Prop :=
  ∀ (w : world) (g : gucci) (code : string) (st : state) (d t : dict)
    (a b : string),
    dict_wf d → dict_wf t →
    get w (product_details_url code) = Some (JObj d) →
    Dict.lookup "editorialDescription" d = Some (JStr a) →
    Dict.lookup "translations" d = Some (JList [JObj t]) →
    Dict.lookup "language" t = Some (JStr (language g)) →
    Dict.lookup "editorialDescription" t = Some (JStr b) →
    ∃ r st', get_product_details w g code st = Ok (r, st')
             ∧ Dict.lookup "editorial" r = Some (JStr b).

(** The download skip rule read on the number of files of any name. *)
Definition skips_on_file_count : Prop :=
  ∀ (w : world) (fs : filesystem) (d : dict) (code : string) (images : list json),
    Dict.lookup "productCode" d = Some (JStr code) →
    Dict.lookup "images" d = Some (JList images) →
    length (dir_entries fs code) = length images →
    ∃ fs', download_product w (JObj d) fs = Ok (fs', []).

(** The crash rule read over every returned item, stored or not. *)
Definition incomplete_item_always_raises : Prop :=
  ∀ (w : world) (g : gucci) (st : state) (d : dict) (k : string),
    k ∈ "productCode" :: listing_image_keys →
    Dict.lookup k d = None →
    ∃ k', process_product w g st (JObj d) = Raise (KeyError k').

(* ===================================================================== *)
(** ** The media endpoint and the command line *)
(* ===================================================================== *)

Definition product_media_url (product_code : string) : string :=
  "https://prod-catalog-api.guccidigital.io/v1/media/" +:+ product_code.

(** [image["url"].replace("$format$", image_style)]. *)
Definition media_url (image : json) : result string :=
  let! url := subscript image "url" in
  let! s := as_str url in
  Ok (PyStr.replace s "$format$" image_style).

(** [Gucci.get_media]. *)
Definition get_media (w : world) (product_code : string) (st : state)
    : result (list string * state) :=
  let url := product_media_url product_code in
  let st := sent url st in
  match get w url with
  | None => Ok ([], st)
  | Some data =>
      let! images := py_iter data in
      let! urls := mapM media_url images in
      Ok (urls, st)
  end.


(* ===================================================================== *)
(** ** Further predicates *)
(* ===================================================================== *)

(** [s.count(c)] for a one-character needle. *)
Fixpoint count_char (c : ascii) (s : string) : nat :=
  match s with
  | EmptyString => O
  | String c' s' => (if Ascii.eqb c' c then 1 else 0)%nat + count_char c s'
  end.


(** The detail fetches among the requests sent. *)
Definition detail_requests (st : state) : list string :=
  List.filter (fun u => negb (is_listing_url u)) (requests st).

(** [later] is [earlier] with new products appended: the store grew at its
    end only, and the detail fetches sent since are those of the new
    products, in the order they were stored, when details are on, and none
    when they are off. *)
Definition grows (g : gucci) (earlier later : state) : Prop :=
  ∃ added,
    products later = products earlier ++ added
    ∧ initial_count later = initial_count earlier
    ∧ detail_requests later
      = detail_requests earlier
        ++ (if product_details g
            then map (fun kv => product_details_url (fst kv)) added
            else []).

(** Every record of the store carries, under [productCode], the key it is
    stored under. *)
Definition keyed_by_code (store : dict) : Prop :=
  ∀ code record,
    (code, record) ∈ store → subscript record "productCode" = Ok (JStr code).

(** The image URLs a stored record lists. *)
Definition listed_images (product : json) : list string :=
  match subscript product "images" with
  | Ok images =>
      match py_iter images with
      | Ok elements =>
          omap (fun e => match e with JStr s => Some s | _ => None end) elements
      | _ => []
      end
  | _ => []
  end.

(** [later] keeps every file of [earlier] with its content, and the same
    catalog files. *)
Definition keeps_files (earlier later : filesystem) : Prop :=
  catalogs later = catalogs earlier
  ∧ ∀ dir files,
      image_dirs earlier !! dir = Some files →
      ∃ files', image_dirs later !! dir = Some files' ∧ files ⊆ files'.

(** The same crawler with product details switched on or off. *)
Definition with_details (b : bool) (g : gucci) : gucci :=
  {| categories := categories g;
     lang_code := lang_code g;
     language := language g;
     product_details := b;
     gucci_path := gucci_path g |}.

(** The name [download_images] saves an image under: the last segment of
    its URL. *)
Definition image_filename (url : string) : string :=
  List.last (PyStr.split slash url) EmptyString.

(** An image that needs no request: its file is there, unless its URL is
    one of the [failed] ones. *)
Definition image_settled (failed : string → Prop) (fs : filesystem)
    (dir : string) (image : json) : Prop :=
  ∃ url, image = JStr url
         ∧ (path_exists fs dir (image_filename url) = true ∨ failed url).

(** A product the downloader has been through: its directory exists, and
    either the count of [.jpg] files matches, or each image is settled. *)
Definition settled (failed : string → Prop) (code : string) (product : json)
    (fs : filesystem) : Prop :=
  subscript product "productCode" = Ok (JStr code)
  ∧ dir_exists fs code = true
  ∧ ∃ images n,
      subscript product "images" = Ok images
      ∧ py_len images = Ok n
      ∧ (length (glob_jpg fs code) = n
         ∨ ∃ elements,
             py_iter images = Ok elements
             ∧ Forall (image_settled failed fs code) elements).


(** Two runs end the same way: the same exception, or the same store and
    the same count taken at load time. *)
Definition same_outcome (r1 r2 : result state) : Prop :=
  match r1, r2 with
  | Ok a, Ok b => products a = products b ∧ initial_count a = initial_count b
  | Raise e1, Raise e2 => e1 = e2
  | Timeout, Timeout => True
  | _, _ => False
  end.

(* ===================================================================== *)
(** ** Further samples *)
(* ===================================================================== *)

(** A store that holds [P1] with its one image. *)
Definition stored_P1 : dict := [("P1", JObj one_image_product)].

(** The listing of [catalog] with no detail endpoint behind it. *)
Definition listing_only : world :=
  serving
    [ (products_url "us/en" "men" 0,
       listing_page 3 [listing_item "P0"; listing_item "P1"]);
      (products_url "us/en" "men" 1, listing_page 3 [listing_item "P2"]);
      (products_url "us/en" "men" 2, listing_page 3 [listing_item "P3"]) ].

(* ===================================================================== *)
(** * Verification *)
(* ===================================================================== *)

(* ===================================================================== *)
(** ** Facts about the string primitives *)
(* ===================================================================== *)

Section StringFacts.

Lemma append_cons c (a b : string) : String c a +:+ b = String c (a +:+ b).
Proof. reflexivity. Qed.

Lemma append_nil_l (b : string) : EmptyString +:+ b = b.
Proof. reflexivity. Qed.

Lemma append_nil_r (a : string) : a +:+ EmptyString = a.
Proof. induction a as [|x a IH]; [done|]. by rewrite append_cons, IH. Qed.

Lemma append_assoc (a b c : string) : (a +:+ b) +:+ c = a +:+ (b +:+ c).
Proof. induction a as [|x a IH]; [done|]. by rewrite !append_cons, IH. Qed.

Lemma append_length (a b : string) :
  String.length (a +:+ b) = (String.length a + String.length b)%nat.
Proof.
  induction a as [|x a IH]; [done|].
  rewrite append_cons. simpl. by rewrite IH.
Qed.

Lemma split_nonempty sep s : PyStr.split sep s ≠ [].
Proof.
  destruct s as [|c s]; simpl; [done|].
  destruct (Ascii.eqb c sep); [done|].
  by destruct (PyStr.split sep s).
Qed.

(** A string without the separator is its own single segment. *)
Lemma split_no_sep sep s :
  PyStr.contains sep s = false → PyStr.split sep s = [s].
Proof.
  induction s as [|c s IH]; simpl; [done|].
  intros [Hc Hs]%orb_false_iff. rewrite Hc, (IH Hs). done.
Qed.

(** The first separator ends the first segment. *)
Lemma split_at_sep sep a b :
  PyStr.contains sep a = false →
  PyStr.split sep (a +:+ String sep b) = a :: PyStr.split sep b.
Proof.
  induction a as [|c a IH].
  - intros _. rewrite append_nil_l. simpl. by rewrite Ascii.eqb_refl.
  - intros [Hc Ha]%orb_false_iff. rewrite append_cons. simpl.
    rewrite Hc, (IH Ha). done.
Qed.

(** The segments of [d/name]: at least one, then [name]. *)
Lemma split_snoc sep d name :
  PyStr.contains sep name = false →
  ∃ p pre, PyStr.split sep (d +:+ String sep name) = p :: pre ++ [name].
Proof.
  intros Hn. induction d as [|c d (p & pre & IH)].
  - exists EmptyString, []. rewrite append_nil_l. simpl.
    rewrite Ascii.eqb_refl, (split_no_sep _ _ Hn). done.
  - rewrite append_cons. cbn [PyStr.split]. rewrite IH.
    destruct (Ascii.eqb c sep).
    + by exists EmptyString, (p :: pre).
    + by exists (String c p), pre.
Qed.

(** The last segment of [d/name] is [name]. *)
Lemma last_segment sep d name :
  PyStr.contains sep name = false →
  List.last (PyStr.split sep (d +:+ String sep name)) EmptyString = name.
Proof.
  intros Hn. destruct (split_snoc sep d name Hn) as (p & pre & ->).
  rewrite app_comm_cons. apply last_last.
Qed.

(** A separator occurs in [a ++ b] iff it occurs in one of them. *)
Lemma contains_append c a b :
  PyStr.contains c (a +:+ b) = PyStr.contains c a || PyStr.contains c b.
Proof.
  induction a as [|x a IH]; [done|].
  rewrite append_cons. simpl. rewrite IH. by rewrite orb_assoc.
Qed.

Lemma startswith_append p s : PyStr.startswith p (p +:+ s) = true.
Proof.
  induction p as [|x p IH]; [done|].
  rewrite append_cons. simpl. by rewrite Ascii.eqb_refl, IH.
Qed.

(** Once a match is being skipped, the scan resumes after it. *)
Lemma replace_scan_skip old new a s :
  PyStr.replace_scan old new (String.length a) (a +:+ s)
  = PyStr.replace_scan old new O s.
Proof.
  induction a as [|x a IH]; [by destruct s|].
  rewrite append_cons. simpl. exact IH.
Qed.

Lemma occurrences_from_cons old i c s :
  PyStr.occurrences_from old i (String c s)
  = (if PyStr.startswith old (String c s) then [i] else [])
      ++ PyStr.occurrences_from old (S i) s.
Proof. reflexivity. Qed.

Lemma occurrences_from_tail old i c s :
  PyStr.occurrences_from old i (String c s) = [] →
  PyStr.occurrences_from old (S i) s = [].
Proof. simpl. by intros [_ ?]%app_eq_nil. Qed.

Lemma occurrences_from_shift old i j s :
  PyStr.occurrences_from old i s = [] → PyStr.occurrences_from old j s = [].
Proof.
  revert i j. induction s as [|c s IH]; intros i j; simpl.
  - by destruct (PyStr.startswith old EmptyString).
  - destruct (PyStr.startswith old (String c s)); [done|]. simpl. apply IH.
Qed.

Lemma occurrences_from_drop old i a s :
  PyStr.occurrences_from old i (a +:+ s) = [] →
  PyStr.occurrences_from old i s = [].
Proof.
  revert i. induction a as [|c a IH]; intros i; [done|].
  rewrite append_cons. intros H%occurrences_from_tail.
  apply (occurrences_from_shift _ (S i)). by apply IH.
Qed.

(** Without an occurrence the scan copies the string. *)
Lemma replace_scan_none old new i s :
  PyStr.occurrences_from old i s = [] → PyStr.replace_scan old new O s = s.
Proof.
  revert i. induction s as [|c s IH]; intros i; [done|].
  intros H. pose proof (occurrences_from_tail _ _ _ _ H) as Ht.
  simpl in H. simpl.
  destruct (PyStr.startswith old (String c s)); [done|].
  by rewrite (IH _ Ht).
Qed.

(** A single occurrence is the one replaced. *)
Lemma replace_scan_single old new pre post i :
  old ≠ EmptyString →
  PyStr.occurrences_from old i (pre +:+ old +:+ post)
    = [(i + String.length pre)%nat] →
  PyStr.replace_scan old new O (pre +:+ old +:+ post) = pre +:+ new +:+ post.
Proof.
  intros Hold. revert i. induction pre as [|c pre IH]; intros i.
  - rewrite !append_nil_l.
    destruct old as [|x old]; [done|].
    rewrite append_cons. intros H.
    cbn [PyStr.replace_scan].
    rewrite <- (append_cons x old post), startswith_append.
    cbn [String.length Nat.pred]. rewrite replace_scan_skip.
    f_equal. apply (replace_scan_none _ _ (S i)).
    rewrite occurrences_from_cons, <- (append_cons x old post) in H.
    rewrite startswith_append in H.
    simpl in H. injection H as _ H.
    by apply occurrences_from_drop in H.
  - rewrite !append_cons. intros H. simpl in H. simpl.
    destruct (PyStr.startswith old (String c (pre +:+ old +:+ post))).
    + simpl in H. injection H as H _. lia.
    + simpl in H. f_equal. apply (IH (S i)).
      rewrite H. f_equal. lia.
Qed.

End StringFacts.

(* ===================================================================== *)
(** ** URL rewrite *)
(* ===================================================================== *)


(** The style token of [//host/dir/style...] is the segment at index 4. *)
Lemma style_segment host dir style rest :
  PyStr.contains slash host = false →
  PyStr.contains slash dir = false →
  PyStr.contains slash style = false →
  rest = EmptyString ∨ (∃ r, rest = String slash r) →
  PyStr.split slash ("//" +:+ host +:+ "/" +:+ dir +:+ "/" +:+ style +:+ rest)
    !! 4%nat = Some style.
Proof.
  intros Hh Hd Hs Hrest.
  change ("//" +:+ host +:+ "/" +:+ dir +:+ "/" +:+ style +:+ rest)
    with (EmptyString +:+ String slash (EmptyString +:+ String slash
            (host +:+ String slash (dir +:+ String slash (style +:+ rest))))).
  rewrite !split_at_sep by done. simpl.
  destruct Hrest as [-> | [r ->]].
  - rewrite append_nil_r, split_no_sep by done. done.
  - rewrite split_at_sep by done. done.
Qed.

(** C5 (amended). [process_url] always prefixes [https:], whether or not
    the URL already carries a scheme, and replaces the text of the segment
    at index 4 of the [/]-split.  On a scheme-relative URL
    [//host/dir/style...] whose style text occurs nowhere else in the URL,
    exactly that segment becomes the style constant and the rest is
    unchanged. *)
Theorem process_url_rewrites_style_position :
  (∀ url style,
     PyStr.split slash url !! 4%nat = Some style →
     process_url url = Ok ("https:" +:+ PyStr.replace url style image_style))
  ∧ (∀ host dir style rest,
       PyStr.contains slash host = false →
       PyStr.contains slash dir = false →
       PyStr.contains slash style = false →
       rest = EmptyString ∨ (∃ r, rest = String slash r) →
       let pre := "//" +:+ host +:+ "/" +:+ dir +:+ "/" in
       PyStr.occurrences style (pre +:+ style +:+ rest) = [String.length pre] →
       process_url (pre +:+ style +:+ rest)
       = Ok ("https:" +:+ pre +:+ image_style +:+ rest)).
Proof.
  split.
  - intros url style H. unfold process_url. by rewrite H.
  - intros host dir style rest Hh Hd Hs Hrest pre Hocc.
    assert (Hseg : PyStr.split slash (pre +:+ style +:+ rest) !! 4%nat = Some style).
    { subst pre. rewrite !append_assoc. by apply style_segment. }
    unfold process_url. rewrite Hseg. do 2 f_equal.
    destruct style as [|c style].
    { exfalso. unfold PyStr.occurrences in Hocc. subst pre.
      rewrite !append_assoc in Hocc. simpl in Hocc. discriminate. }
    unfold PyStr.replace.
    apply (replace_scan_single _ _ _ _ O); [done | exact Hocc].
Qed.

Lemma process_url_rewrites_style_position_witness :
  process_url ("//" +:+ "assets.example.com" +:+ "/" +:+ "media" +:+ "/"
                 +:+ "STYLE123" +:+ "/large/img.jpg")
  = Ok ("https:" +:+ ("//" +:+ "assets.example.com" +:+ "/" +:+ "media" +:+ "/")
          +:+ image_style +:+ "/large/img.jpg").
Proof.
  apply (proj2 process_url_rewrites_style_position
           "assets.example.com" "media" "STYLE123" "/large/img.jpg").
  - reflexivity.
  - reflexivity.
  - reflexivity.
  - right. by exists "large/img.jpg".
  - reflexivity.
Defined.

(** C5 as stated fails: a URL that already carries a scheme is prefixed
    again. *)
Lemma process_url_prefixes_absolute_url :
  ¬ scheme_kept_when_present.
Proof.
  intros H.
  specialize (H "https://assets.example.com/media/STYLE123/large/img.jpg"
                "STYLE123" eq_refl eq_refl).
  vm_compute in H. discriminate.
Qed.

(* ===================================================================== *)
(** ** Image deduplication *)
(* ===================================================================== *)

Section Dedup.

Implicit Types (images result : list string) (seen : gset string).

(** The result set only grows at its end. *)
Lemma dedup_loop_acc images seen result :
  dedup_loop images seen result = result ++ dedup_loop images seen [].
Proof.
  revert seen result. induction images as [|u rest IH]; intros seen result.
  - simpl. by rewrite app_nil_r.
  - simpl. case_decide.
    + apply IH.
    + rewrite IH, (IH _ ([] ++ [u])). by rewrite <- app_assoc.
Qed.

Lemma dedup_loop_cons u rest seen :
  dedup_loop (u :: rest) seen []
  = if decide (derived_filename u ∈ seen) then dedup_loop rest seen []
    else u :: dedup_loop rest ({[derived_filename u]} ∪ seen) [].
Proof. simpl. case_decide; [done|]. by rewrite dedup_loop_acc. Qed.

(** What is kept comes from the input and has a name not seen before. *)
Lemma dedup_loop_sound images seen u :
  u ∈ dedup_loop images seen [] → u ∈ images ∧ derived_filename u ∉ seen.
Proof.
  revert seen. induction images as [|x rest IH]; intros seen.
  - simpl. by intros ?%elem_of_nil.
  - rewrite dedup_loop_cons. case_decide as Hx.
    + intros Hu. destruct (IH _ Hu) as [? ?]. split; [by right | done].
    + intros [->|Hu]%elem_of_cons; [split; [by left | done]|].
      destruct (IH _ Hu) as [? ?]. split; [by right | set_solver].
Qed.

(** No two kept images share a derived filename. *)
Lemma dedup_loop_names_NoDup images seen :
  NoDup (map derived_filename (dedup_loop images seen [])).
Proof.
  revert seen. induction images as [|x rest IH]; intros seen.
  - simpl. constructor.
  - rewrite dedup_loop_cons. case_decide as Hx; [apply IH|].
    simpl. constructor; [|apply IH].
    intros (y & Hy & Hin)%list_elem_of_fmap.
    apply dedup_loop_sound in Hin as [_ Hin]. set_solver.
Qed.

(** The first image of each unseen name is kept. *)
Lemma dedup_loop_first pre u post seen :
  derived_filename u ∉ seen →
  derived_filename u ∉ map derived_filename pre →
  u ∈ dedup_loop (pre ++ u :: post) seen [].
Proof.
  revert seen. induction pre as [|x pre IH]; intros seen Hseen Hpre.
  - simpl app. rewrite dedup_loop_cons. rewrite decide_False by done. by left.
  - simpl app. rewrite dedup_loop_cons.
    simpl in Hpre. apply not_elem_of_cons in Hpre as [Hne Hpre].
    case_decide.
    + by apply IH.
    + right. apply IH; [set_solver | done].
Qed.

(** Every unseen name of the input is the name of a kept image. *)
Lemma dedup_loop_complete images seen u :
  u ∈ images → derived_filename u ∉ seen →
  derived_filename u ∈ map derived_filename (dedup_loop images seen []).
Proof.
  revert seen. induction images as [|x rest IH]; intros seen.
  - by intros ?%elem_of_nil.
  - intros Hin Hseen. rewrite dedup_loop_cons.
    destruct (decide (derived_filename x = derived_filename u)) as [Heq|Hne].
    + rewrite decide_False by (by rewrite Heq).
      simpl. rewrite Heq. by left.
    + apply elem_of_cons in Hin as [->|Hin]; [done|].
      case_decide.
      * by apply IH.
      * simpl. right. apply IH; [done | set_solver].
Qed.

Lemma none_of_name (l : list string) (f : string) :
  f ∉ map derived_filename l →
  filter (λ x, derived_filename x = f) l = [].
Proof.
  induction l as [|x l IH]; [done|].
  simpl. intros [Hx Hl]%not_elem_of_cons.
  rewrite filter_cons, decide_False by done. by apply IH.
Qed.

(** In a list whose names are distinct, a name that occurs selects
    exactly one element. *)
Lemma one_per_name (l : list string) (f : string) :
  NoDup (map derived_filename l) →
  f ∈ map derived_filename l →
  length (filter (λ x, derived_filename x = f) l) = 1%nat.
Proof.
  induction l as [|x l IH]; simpl.
  - by intros _ ?%elem_of_nil.
  - intros [Hx Hnd]%NoDup_cons Hin.
    rewrite filter_cons. case_decide as Heq.
    + simpl. rewrite none_of_name; [done|]. by rewrite <- Heq.
    + apply elem_of_cons in Hin as [Hin|Hin]; [done|]. by apply IH.
Qed.

(** A list holding two different elements has at least two. *)
Lemma two_members (l : list string) (a b : string) :
  a ≠ b → a ∈ l → b ∈ l → (2 ≤ length l)%nat.
Proof.
  intros Hne Ha Hb.
  destruct l as [|x [|y l]]; simpl; [set_solver | set_solver | lia].
Qed.

End Dedup.

Section DerivedFilename.

Lemma hd_split_cons sep c s :
  hd EmptyString (PyStr.split sep (String c s))
  = if Ascii.eqb c sep then EmptyString
    else String c (hd EmptyString (PyStr.split sep s)).
Proof.
  simpl. destruct (Ascii.eqb c sep); [done|].
  pose proof (split_nonempty sep s).
  by destruct (PyStr.split sep s).
Qed.

(** The first segment does not depend on what follows the first
    separator. *)
Lemma hd_split_tail sep a r r' :
  hd EmptyString (PyStr.split sep (a +:+ String sep r))
  = hd EmptyString (PyStr.split sep (a +:+ String sep r')).
Proof.
  induction a as [|c a IH].
  - rewrite !append_nil_l, !hd_split_cons. by rewrite Ascii.eqb_refl.
  - rewrite !append_cons, !hd_split_cons. by rewrite IH.
Qed.

(** [d/A-r] is remembered under the text before the first dash of [A-r],
    with [.jpg] appended. *)
Lemma derived_filename_dashed d A r :
  PyStr.contains slash A = false →
  PyStr.contains slash r = false →
  derived_filename (d +:+ "/" +:+ A +:+ "-" +:+ r)
  = hd EmptyString (PyStr.split dash (A +:+ "-")) +:+ ".jpg".
Proof.
  intros HA Hr. unfold derived_filename.
  change (d +:+ "/" +:+ A +:+ "-" +:+ r)
    with (d +:+ String slash (A +:+ String dash r)).
  rewrite last_segment.
  2:{ rewrite contains_append, HA. simpl. exact Hr. }
  rewrite contains_append.
  replace (PyStr.contains dash (String dash r)) with true by done.
  rewrite orb_true_r. f_equal. apply hd_split_tail.
Qed.

Lemma derived_filename_dashed_simple d A r :
  PyStr.contains slash A = false →
  PyStr.contains dash A = false →
  PyStr.contains slash r = false →
  derived_filename (d +:+ "/" +:+ A +:+ "-" +:+ r) = A +:+ ".jpg".
Proof.
  intros HA HA' Hr. rewrite derived_filename_dashed by done.
  change (A +:+ "-") with (A +:+ String dash EmptyString).
  by rewrite split_at_sep.
Qed.

(** [d/B.jpg] without a dash in [B] is remembered under [B.jpg]. *)
Lemma derived_filename_plain d B :
  PyStr.contains slash B = false →
  PyStr.contains dash B = false →
  derived_filename (d +:+ "/" +:+ B +:+ ".jpg") = B +:+ ".jpg".
Proof.
  intros HB HB'. unfold derived_filename.
  change (d +:+ "/" +:+ B +:+ ".jpg") with (d +:+ String slash (B +:+ ".jpg")).
  rewrite last_segment by (by rewrite contains_append, HB).
  by rewrite contains_append, HB'.
Qed.

(** The two numbered URLs are different images. *)
Lemma numbered_urls_differ d1 d2 A :
  PyStr.contains slash A = false →
  d1 +:+ "/" +:+ A +:+ "-1.jpg" ≠ d2 +:+ "/" +:+ A +:+ "-2.jpg".
Proof.
  intros HA Heq.
  apply (f_equal (λ s, List.last (PyStr.split slash s) EmptyString)) in Heq.
  change (d1 +:+ "/" +:+ A +:+ "-1.jpg")
    with (d1 +:+ String slash (A +:+ "-1.jpg")) in Heq.
  change (d2 +:+ "/" +:+ A +:+ "-2.jpg")
    with (d2 +:+ String slash (A +:+ "-2.jpg")) in Heq.
  rewrite !last_segment in Heq by (by rewrite contains_append, HA).
  by apply String.app_inj in Heq.
Qed.

End DerivedFilename.

(** C2 (amended). Deduplication keeps exactly one URL per derived
    filename, the first in input order.  For any input list containing URLs
    that end in [A-1.jpg] and [A-2.jpg], the two derive the same filename
    ([A.jpg] when [A] has no dash) and the output holds exactly one URL of
    that filename; it is one of the two when no other URL of the list
    derives that filename.  URLs ending in [B.jpg] and [C.jpg] without a
    dash are both kept when no other URL of the list derives [B.jpg] or
    [C.jpg]. *)
Theorem deduplicate_images_one_per_filename (w : world) (images : list string) :
  set_order w (dedup_kept images) ≡ₚ dedup_kept images →
  let out := deduplicate_images w images in
  (∀ u, u ∈ images →
     length (filter (λ x, derived_filename x = derived_filename u) out) = 1%nat)
  ∧ (∀ pre u post,
       images = pre ++ u :: post →
       derived_filename u ∉ map derived_filename pre → u ∈ out)
  ∧ (∀ u, u ∈ out → u ∈ images)
  ∧ (∀ d1 d2 A,
       PyStr.contains slash A = false →
       let u1 := d1 +:+ "/" +:+ A +:+ "-1.jpg" in
       let u2 := d2 +:+ "/" +:+ A +:+ "-2.jpg" in
       derived_filename u1 = derived_filename u2
       ∧ (PyStr.contains dash A = false → derived_filename u1 = A +:+ ".jpg")
       ∧ (u1 ∈ images → u2 ∈ images →
          (∀ x, x ∈ images → derived_filename x = derived_filename u1 →
                x = u1 ∨ x = u2) →
          (u1 ∈ out ∧ u2 ∉ out) ∨ (u2 ∈ out ∧ u1 ∉ out)))
  ∧ (∀ d d' B C,
       PyStr.contains slash B = false → PyStr.contains dash B = false →
       PyStr.contains slash C = false → PyStr.contains dash C = false →
       let uB := d +:+ "/" +:+ B +:+ ".jpg" in
       let uC := d' +:+ "/" +:+ C +:+ ".jpg" in
       uB ∈ images → uC ∈ images →
       (∀ x, x ∈ images → derived_filename x = B +:+ ".jpg" → x = uB) →
       (∀ x, x ∈ images → derived_filename x = C +:+ ".jpg" → x = uC) →
       uB ∈ out ∧ uC ∈ out).
Proof.
  intros Hperm out.
  assert (Hone : ∀ u, u ∈ images →
     length (filter (λ x, derived_filename x = derived_filename u) out) = 1%nat).
  { intros u Hu. subst out. unfold deduplicate_images. rewrite Hperm.
    apply one_per_name; [apply dedup_loop_names_NoDup|].
    apply dedup_loop_complete; [done | set_solver]. }
  assert (Hin : ∀ u, u ∈ out → u ∈ images).
  { intros u. subst out. unfold deduplicate_images. rewrite Hperm.
    intros Hu. by apply dedup_loop_sound in Hu as [? _]. }
  assert (Hsome : ∀ u, u ∈ images →
     ∃ x, x ∈ out ∧ derived_filename x = derived_filename u).
  { intros u Hu. subst out. unfold deduplicate_images.
    assert (derived_filename u
              ∈ map derived_filename (dedup_loop images ∅ [])) as Hc
      by (apply dedup_loop_complete; [done | set_solver]).
    apply list_elem_of_fmap in Hc as (x & Hx & Hxin).
    exists x. by rewrite Hperm. }
  assert (Hpair : ∀ a b, a ≠ b → derived_filename a = derived_filename b →
     a ∈ images → a ∈ out → b ∈ out → False).
  { intros a b Hne Hname Ha Hao Hbo. specialize (Hone a Ha).
    assert (2 ≤ length (filter
      (λ x, derived_filename x = derived_filename a) out))%nat; [|lia].
    apply (two_members _ a b); [done | |]; apply list_elem_of_filter; done. }
  split; [exact Hone|]. split; [|split; [exact Hin|split]].
  - intros pre u post -> Hpre. subst out. unfold deduplicate_images.
    rewrite Hperm. apply dedup_loop_first; [set_solver | done].
  - intros d1 d2 A HA u1 u2.
    assert (Hsame : derived_filename u1 = derived_filename u2).
    { subst u1 u2.
      change (d1 +:+ "/" +:+ A +:+ "-1.jpg") with (d1 +:+ "/" +:+ A +:+ "-" +:+ "1.jpg").
      change (d2 +:+ "/" +:+ A +:+ "-2.jpg") with (d2 +:+ "/" +:+ A +:+ "-" +:+ "2.jpg").
      by rewrite !derived_filename_dashed. }
    split; [exact Hsame|]. split.
    + intros HA'. subst u1.
      change (d1 +:+ "/" +:+ A +:+ "-1.jpg") with (d1 +:+ "/" +:+ A +:+ "-" +:+ "1.jpg").
      by apply derived_filename_dashed_simple.
    + intros H1 H2 Honly.
      pose proof (numbered_urls_differ d1 d2 A HA) as Hne. fold u1 u2 in Hne.
      destruct (Hsome u1 H1) as (x & Hxo & Hxn).
      destruct (Honly x (Hin x Hxo) Hxn) as [-> | ->].
      * left. split; [done|]. intros Hu2. by apply (Hpair u1 u2).
      * right. split; [done|]. intros Hu1. by apply (Hpair u1 u2).
  - intros d d' B C HB HB' HC HC' uB uC HuB HuC HonlyB HonlyC. split.
    + destruct (Hsome uB HuB) as (x & Hxo & Hxn).
      subst uB. rewrite derived_filename_plain in Hxn by done.
      by rewrite <- (HonlyB x (Hin x Hxo) Hxn).
    + destruct (Hsome uC HuC) as (x & Hxo & Hxn).
      subst uC. rewrite derived_filename_plain in Hxn by done.
      by rewrite <- (HonlyC x (Hin x Hxo) Hxn).
Qed.

Lemma deduplicate_images_one_per_filename_witness :
  length
    (filter (λ x, derived_filename x = derived_filename "https://h/m/s/l/A-2.jpg")
       (deduplicate_images quiet_world
          ["https://h/m/s/l/A-1.jpg"; "https://h/m/s/l/A-2.jpg";
           "https://h/m/s/l/B.jpg"; "https://h/m/s/l/C.jpg"])) = 1%nat.
Proof.
  apply (deduplicate_images_one_per_filename quiet_world
           ["https://h/m/s/l/A-1.jpg"; "https://h/m/s/l/A-2.jpg";
            "https://h/m/s/l/B.jpg"; "https://h/m/s/l/C.jpg"]).
  - reflexivity.
  - set_solver.
Defined.

(** C2 as stated fails when an earlier URL of the list already derives the
    filename: neither of the pair is kept. *)
Lemma deduplicate_images_pair_both_dropped :
  ¬ exactly_one_of_pair_kept.
Proof.
  intros H.
  specialize (H quiet_world
    ["https://h/m/s/l/A-0.jpg"; "https://h/m/s/l/A-1.jpg"; "https://h/m/s/l/A-2.jpg"]
    "https://h/m/s/l" "https://h/m/s/l" "A").
  simpl in H.
  destruct H as [[H _]|[H _]]; [done | done | set_solver | set_solver | |];
    vm_compute in H; apply list_elem_of_In in H; simpl in H;
    destruct H as [H|[]]; discriminate.
Qed.

(* ===================================================================== *)
(** ** Facts about dicts *)
(* ===================================================================== *)

Section DictFacts.

Implicit Types (d t : dict) (k : string) (v : json).

Lemma lookup_set k k' v d :
  Dict.lookup k (Dict.set k' v d)
  = if String.eqb k' k then Some v else Dict.lookup k d.
Proof.
  induction d as [|[k1 v1] d IH]; simpl.
  - by destruct (String.eqb k' k).
  - destruct (String.eqb_spec k1 k') as [->|Hne]; simpl.
    + by destruct (String.eqb k' k).
    + rewrite IH. destruct (String.eqb_spec k1 k) as [->|];
        [|done]. by rewrite (proj2 (String.eqb_neq _ _)) by done.
Qed.

Lemma lookup_None_keys k d : Dict.lookup k d = None ↔ k ∉ map fst d.
Proof.
  induction d as [|[k1 v1] d IH]; simpl.
  - split; [intros _; apply not_elem_of_nil | done].
  - rewrite not_elem_of_cons.
    destruct (String.eqb_spec k1 k) as [->|Hne]; [naive_solver|].
    rewrite IH. naive_solver.
Qed.

Lemma keys_set k v d :
  map fst (Dict.set k v d)
  = if Dict.mem k d then map fst d else map fst d ++ [k].
Proof.
  unfold Dict.mem. induction d as [|[k1 v1] d IH]; simpl; [done|].
  destruct (String.eqb k1 k); simpl; [done|].
  rewrite IH. by destruct (Dict.lookup k d).
Qed.

Lemma wf_set k v d : dict_wf d → dict_wf (Dict.set k v d).
Proof.
  unfold dict_wf. intros Hd. rewrite keys_set. unfold Dict.mem.
  destruct (Dict.lookup k d) eqn:Hk; [done|].
  apply NoDup_app. split; [done|]. split; [|apply NoDup_singleton].
  intros x Hx ->%list_elem_of_singleton. by apply lookup_None_keys in Hk.
Qed.

Lemma wf_update d t : dict_wf d → dict_wf (Dict.update d t).
Proof.
  unfold Dict.update. revert d.
  induction t as [|[k v] t IH]; intros d Hd; simpl; [done|].
  apply IH. by apply wf_set.
Qed.

(** [update] gives precedence to the other dict. *)
Lemma lookup_update k d t :
  dict_wf t →
  Dict.lookup k (Dict.update d t)
  = match Dict.lookup k t with
    | Some v => Some v
    | None => Dict.lookup k d
    end.
Proof.
  unfold Dict.update. revert d.
  induction t as [|[k1 v1] t IH]; intros d Ht; simpl; [done|].
  apply NoDup_cons in Ht as [Hk1 Ht]. simpl in Hk1.
  apply lookup_None_keys in Hk1. rewrite IH by done.
  rewrite lookup_set.
  destruct (String.eqb_spec k1 k) as [->|Hne]; [|done].
  by rewrite Hk1.
Qed.

Lemma lookup_pop_ne k k' d :
  k ≠ k' → Dict.lookup k (Dict.pop k' d) = Dict.lookup k d.
Proof.
  intros Hne. induction d as [|[k1 v1] d IH]; simpl; [done|].
  destruct (String.eqb_spec k1 k') as [->|Hne1].
  - by rewrite (proj2 (String.eqb_neq _ _)) by done.
  - simpl. by rewrite IH.
Qed.

Lemma lookup_pop_None k k' d :
  Dict.lookup k d = None → Dict.lookup k (Dict.pop k' d) = None.
Proof.
  induction d as [|[k1 v1] d IH]; simpl; [done|].
  destruct (String.eqb_spec k1 k) as [->|Hne]; [done|]. intros Hd.
  destruct (String.eqb k1 k'); [done|]. simpl.
  rewrite (proj2 (String.eqb_neq _ _)) by done. by apply IH.
Qed.

Lemma lookup_pop_all_None k ks d :
  Dict.lookup k d = None → Dict.lookup k (Dict.pop_all ks d) = None.
Proof.
  unfold Dict.pop_all. revert d.
  induction ks as [|k' ks IH]; intros d Hd; simpl; [done|].
  apply IH. by apply lookup_pop_None.
Qed.

Lemma lookup_pop_all_other k ks d :
  k ∉ ks → Dict.lookup k (Dict.pop_all ks d) = Dict.lookup k d.
Proof.
  unfold Dict.pop_all. revert d.
  induction ks as [|k' ks IH]; intros d Hk; simpl; [done|].
  apply not_elem_of_cons in Hk as [Hne Hk].
  rewrite IH by done. by apply lookup_pop_ne.
Qed.

Lemma in_list_elem_of k (l : list string) : in_list k l = true ↔ k ∈ l.
Proof.
  unfold in_list. rewrite existsb_exists. split.
  - intros (x & Hx%list_elem_of_In & ->%String.eqb_eq). done.
  - intros Hk. exists k. split; [by apply list_elem_of_In|].
    apply String.eqb_refl.
Qed.

End DictFacts.

(* ===================================================================== *)
(** ** Product detail enricher *)
(* ===================================================================== *)

Section Enricher.

Implicit Types (d t data : dict) (k : string).

(** What the comprehension leaves under a key. *)
Lemma lookup_rename_fold k' data acc :
  Dict.lookup k'
    (fold_left
       (fun acc kv =>
          if in_list (fst kv) details_drop_keys then acc
          else Dict.set (rename_get rename (fst kv)) (snd kv) acc)
       data acc)
  = match last_renamed k' data with
    | Some x => Some x
    | None => Dict.lookup k' acc
    end.
Proof.
  revert acc. induction data as [|[k v] data IH]; intros acc; [done|].
  cbn [fold_left last_renamed fst snd]. rewrite IH.
  destruct (last_renamed k' data); [done|].
  destruct (in_list k details_drop_keys); cbn [negb andb]; [done|].
  rewrite lookup_set. by destruct (String.eqb _ k').
Qed.

Lemma lookup_rename_and_drop k' data :
  Dict.lookup k' (rename_and_drop data) = last_renamed k' data.
Proof.
  unfold rename_and_drop. rewrite lookup_rename_fold.
  by destruct (last_renamed k' data).
Qed.

(** A key is renamed to itself or to a target of the table, and a source
    of the table never stays. *)
Lemma rename_get_cases k :
  (rename_get rename k = k ∧ k ∉ map fst rename)
  ∨ rename_get rename k ∈ map snd rename.
Proof.
  unfold rename. cbn [rename_get map fst snd].
  repeat match goal with
         | |- context [String.eqb ?a k] =>
             destruct (String.eqb_spec a k) as [?|?];
             [right; apply list_elem_of_In; simpl; auto 10|]
         end.
  left. split; [done|]. rewrite list_elem_of_In. simpl. intuition congruence.
Qed.

(** No item is renamed onto a dropped key or onto an old name. *)
Lemma last_renamed_absent k' data :
  k' ∈ details_drop_keys ∨ k' ∈ map fst rename →
  last_renamed k' data = None.
Proof.
  intros Hk'. induction data as [|[k v] data IH]; [done|].
  cbn [last_renamed]. rewrite IH.
  destruct (in_list k details_drop_keys) eqn:Hdrop; [done|].
  cbn [negb andb].
  destruct (String.eqb_spec (rename_get rename k) k') as [Heq|]; [|done].
  exfalso. destruct (rename_get_cases k) as [[Hid Hsrc]|Htgt].
  - rewrite Hid in Heq. subst k'. destruct Hk' as [Hk'|Hk']; [|done].
    apply in_list_elem_of in Hk'. congruence.
  - rewrite Heq in Htgt. clear -Hk' Htgt.
    unfold rename in Htgt. cbn [map snd] in Htgt.
    repeat (apply elem_of_cons in Htgt as [->|Htgt];
            [destruct Hk' as [Hk'|Hk']; apply in_list_elem_of in Hk';
             vm_compute in Hk'; discriminate|]).
    by apply elem_of_nil in Htgt.
Qed.

(** The value of a kept key that nothing else is renamed onto. *)
Lemma last_renamed_only k v data :
  dict_wf data →
  Dict.lookup k data = Some v →
  in_list k details_drop_keys = false →
  (∀ j, j ≠ k → rename_get rename j = rename_get rename k →
        Dict.lookup j data = None) →
  last_renamed (rename_get rename k) data = Some v.
Proof.
  intros Hwf Hk Hdrop Honly.
  assert (Hnone : ∀ rest,
    Dict.lookup k rest = None →
    (∀ j, j ≠ k → rename_get rename j = rename_get rename k →
          Dict.lookup j rest = None) →
    last_renamed (rename_get rename k) rest = None).
  { induction rest as [|[j x] rest IHr]; [done|]. intros Hk' Hj.
    cbn [last_renamed]. cbn [Dict.lookup] in Hk'.
    destruct (String.eqb_spec j k) as [->|Hne]; [done|].
    rewrite IHr; [|done|].
    - destruct (String.eqb_spec (rename_get rename j) (rename_get rename k))
        as [Heq|]; [|by rewrite andb_false_r].
      specialize (Hj j Hne Heq). cbn [Dict.lookup] in Hj.
      by rewrite String.eqb_refl in Hj.
    - intros i Hi Hri. specialize (Hj i Hi Hri). cbn [Dict.lookup] in Hj.
      by destruct (String.eqb j i). }
  induction data as [|[j x] data IH]; [done|].
  apply NoDup_cons in Hwf as [Hj Hwf]. cbn [fst] in Hj.
  apply lookup_None_keys in Hj.
  cbn [last_renamed]. cbn [Dict.lookup] in Hk.
  destruct (String.eqb_spec j k) as [->|Hne].
  - injection Hk as ->. rewrite Hnone; [| done |].
    + by rewrite Hdrop, String.eqb_refl.
    + intros i Hi Hri. specialize (Honly i Hi Hri). cbn [Dict.lookup] in Honly.
      by rewrite (proj2 (String.eqb_neq _ _)) in Honly by done.
  - rewrite IH; [done | done | done |].
    intros i Hi Hri. specialize (Honly i Hi Hri). cbn [Dict.lookup] in Honly.
    by destruct (String.eqb j i).
Qed.

Lemma merge_translations_others target data ts :
  Forall (other_language target) ts →
  merge_translations target data ts = Ok data.
Proof.
  induction 1 as [|x ts (t & -> & Hx) _ IH]; [done|].
  cbn [merge_translations merge_translation bind]. by rewrite Hx.
Qed.

Lemma merge_translations_one target data before t after :
  Forall (other_language target) before →
  Forall (other_language target) after →
  eq_str (default (JStr EmptyString) (Dict.lookup "language" t)) target = true →
  merge_translations target data (before ++ JObj t :: after)
  = Ok (Dict.update data t).
Proof.
  intros Hb Ha Ht. induction Hb as [|x ts (t' & -> & Hx) _ IH].
  - cbn [app merge_translations merge_translation bind]. rewrite Ht.
    by apply merge_translations_others.
  - cbn [app merge_translations merge_translation bind]. by rewrite Hx.
Qed.

End Enricher.

Lemma eq_str_refl s : eq_str (JStr s) s = true.
Proof. apply String.eqb_refl. Qed.

(** Whatever the enricher returns holds no dropped key and no old name. *)
Lemma enrich_absent target data r k :
  enrich target data = Ok r →
  k ∈ details_drop_keys ∨ k ∈ map fst rename →
  Dict.lookup k r = None.
Proof.
  intros Hr Hk. destruct data as [| | | | |d]; try discriminate.
  cbn [enrich] in Hr.
  destruct (py_iter _) as [ts| |]; try discriminate. cbn [bind] in Hr.
  destruct (merge_translations target d ts) as [m| |]; try discriminate.
  cbn [bind] in Hr. injection Hr as <-.
  apply (lookup_pop_all_None k (map fst rename) (rename_and_drop m)).
  rewrite lookup_rename_and_drop. by apply last_renamed_absent.
Qed.

(** C6 (amended). The translation entry in the target language overrides
    the same-named top-level fields before renaming: with
    [editorialDescription] present at top level and in the one matching
    translation, the result maps [editorial] to the translation's value,
    provided neither of the two carries a field literally named
    [editorial].  In every result, all drop-listed keys and all old names of
    the rename table are absent. *)
Theorem get_product_details_translation_precedence :
  (∀ (w : world) (g : gucci) (code : string) (st : state) (d t : dict)
     (before after : list json) (a b : json),
     dict_wf d → dict_wf t →
     get w (product_details_url code) = Some (JObj d) →
     Dict.lookup "translations" d = Some (JList (before ++ JObj t :: after)) →
     Forall (other_language (language g)) before →
     Forall (other_language (language g)) after →
     Dict.lookup "language" t = Some (JStr (language g)) →
     Dict.lookup "editorialDescription" d = Some a →
     Dict.lookup "editorialDescription" t = Some b →
     Dict.lookup "editorial" d = None →
     Dict.lookup "editorial" t = None →
     ∃ r, get_product_details w g code st
          = Ok (r, sent (product_details_url code) st)
          ∧ Dict.lookup "editorial" r = Some b)
  ∧ (∀ (w : world) (g : gucci) (code : string) (st st' : state) (r : dict) k,
       get_product_details w g code st = Ok (r, st') →
       k ∈ details_drop_keys ∨ k ∈ map fst rename →
       Dict.lookup k r = None).
Proof.
  split.
  - intros w g code st d t before after a b Hd Ht Hget Htr Hb Ha Hlang
      Hda Htb Hde Hte.
    unfold get_product_details. rewrite Hget.
    cbn [enrich]. rewrite Htr. cbn [default from_option id py_iter bind].
    rewrite (merge_translations_one (language g) d before t after Hb Ha)
      by (rewrite Hlang; apply eq_str_refl).
    cbn [bind]. eexists. split; [reflexivity|].
    rewrite lookup_pop_all_other.
    2:{ rewrite list_elem_of_In. simpl. intuition discriminate. }
    rewrite lookup_rename_and_drop.
    apply (last_renamed_only "editorialDescription").
    + by apply wf_update.
    + by rewrite lookup_update, Htb.
    + reflexivity.
    + intros j Hj Hren. rewrite lookup_update by done.
      assert (j = "editorial") as ->.
      { destruct (rename_get_cases j) as [[Hid _]|Htgt].
        - by rewrite Hid in Hren.
        - clear -Hj Hren. revert Hren. unfold rename.
          cbn [rename_get].
          repeat match goal with
                 | |- context [String.eqb ?x j] =>
                     destruct (String.eqb_spec x j) as [?|?];
                     [first [congruence | intros; discriminate]|]
                 end.
          done. }
      by rewrite Hte.
  - intros w g code st st' r k Hr Hk.
    unfold get_product_details in Hr.
    destruct (get w (product_details_url code)) as [data|].
    + destruct (enrich (language g) data) as [r'| |] eqn:He; try discriminate.
      cbn [bind] in Hr. injection Hr as <- _. by eapply enrich_absent.
    + by injection Hr as <- _.
Qed.

Lemma get_product_details_translation_precedence_witness :
  ∃ r, get_product_details
         (serving [(product_details_url "P1", JObj detail_plain)])
         english "P1" empty_state
       = Ok (r, sent (product_details_url "P1") empty_state)
       ∧ Dict.lookup "editorial" r = Some (JStr "B").
Proof.
  apply (proj1 get_product_details_translation_precedence
           (serving [(product_details_url "P1", JObj detail_plain)])
           english "P1" empty_state detail_plain translated [] []
           (JStr "A") (JStr "B")).
  - apply (bool_decide_unpack _). vm_compute. reflexivity.
  - apply (bool_decide_unpack _). vm_compute. reflexivity.
  - reflexivity.
  - reflexivity.
  - constructor.
  - constructor.
  - reflexivity.
  - reflexivity.
  - reflexivity.
  - reflexivity.
  - reflexivity.
Defined.

(** C6 as stated fails on a detail record that also carries a literal
    [editorial] field after [editorialDescription]: the later item wins the
    renamed key. *)
Lemma get_product_details_editorial_collision :
  ¬ translation_always_wins.
Proof.
  intros H.
  destruct (H (serving [(product_details_url "P1", JObj detail_with_both_names)])
              english "P1" empty_state detail_with_both_names translated
              "A" "B") as (r & st' & Hr & Hed).
  - apply (bool_decide_unpack _). vm_compute. reflexivity.
  - apply (bool_decide_unpack _). vm_compute. reflexivity.
  - reflexivity.
  - reflexivity.
  - reflexivity.
  - reflexivity.
  - reflexivity.
  - vm_compute in Hr. injection Hr as <- _. vm_compute in Hed. discriminate.
Qed.

(* ===================================================================== *)
(** ** Image downloader *)
(* ===================================================================== *)

Section Downloader.

Implicit Types (fs : filesystem) (dir filename url : string).

Lemma path_exists_write_file fs dir filename content :
  is_Some (image_dirs fs !! dir) →
  path_exists (write_file dir filename content fs) dir filename = true.
Proof.
  intros [files Hdir]. unfold path_exists, write_file. cbn [image_dirs].
  rewrite lookup_alter_eq, Hdir. cbn [fmap option_fmap option_map].
  rewrite lookup_insert_eq. rewrite bool_decide_eq_true_2 by eauto.
  apply orb_true_r.
Qed.

Lemma dir_exists_mkdir fs dir : dir_exists (mkdir dir fs) dir = true.
Proof.
  unfold dir_exists, mkdir. apply bool_decide_eq_true_2.
  destruct (image_dirs fs !! dir) eqn:Hd.
  - rewrite Hd. eauto.
  - cbn [image_dirs]. rewrite lookup_insert_eq. eauto.
Qed.

(** Creating the directory does not change what [glob] finds in it. *)
Lemma glob_jpg_mkdir fs dir : glob_jpg (mkdir dir fs) dir = glob_jpg fs dir.
Proof.
  unfold glob_jpg, mkdir.
  destruct (image_dirs fs !! dir) eqn:Hd.
  - by rewrite Hd.
  - cbn [image_dirs]. rewrite lookup_insert_eq. by rewrite map_to_list_empty.
Qed.

End Downloader.

(** C8. [download] is a no-op when the destination exists: no request, the
    filesystem unchanged.  When the destination is absent and the response
    is not ok, one request is made, nothing is written and the path stays
    absent; a later call on that filesystem asks again and, on an ok
    response, writes the file. *)
Theorem download_resumable (w : world) (url dir filename : string)
    (fs : filesystem) :
  (path_exists fs dir filename = true →
     download w url dir filename fs = Ok (fs, []))
  ∧ (path_exists fs dir filename = false →
     ok (requests_get w url) = false →
     download w url dir filename fs = Ok (fs, [url])
     ∧ ∀ w' : world,
         ok (requests_get w' url) = true →
         is_Some (image_dirs fs !! dir) →
         ∃ fs', download w' url dir filename fs = Ok (fs', [url])
                ∧ path_exists fs' dir filename = true).
Proof.
  split.
  - intros Hex. unfold download. by rewrite Hex.
  - intros Habs Hfail. split.
    + unfold download. by rewrite Habs, Hfail.
    + intros w' Hok [files Hdir]. unfold download.
      rewrite Habs, Hok, Hdir. cbn [negb]. eexists. split; [reflexivity|].
      apply path_exists_write_file. eauto.
Qed.

Lemma download_resumable_witness :
  download quiet_world "https://h/m/s/l/a.jpg" "P1" "a.jpg" disk_with_image
  = Ok (disk_with_image, []).
Proof.
  apply (proj1 (download_resumable quiet_world "https://h/m/s/l/a.jpg"
                  "P1" "a.jpg" disk_with_image)).
  vm_compute. reflexivity.
Defined.

(** C7 (amended). In image-download mode, a stored product whose record
    lists N images and whose directory already holds exactly N entries
    matching [*.jpg] is skipped: no request is made for it, and the loop
    over the store goes on with the next product. *)
Theorem download_product_skip (w : world) (fs : filesystem) (d : dict)
    (code : string) (images : list json) :
  Dict.lookup "productCode" d = Some (JStr code) →
  Dict.lookup "images" d = Some (JList images) →
  length (glob_jpg fs code) = length images →
  download_product w (JObj d) fs = Ok (mkdir code fs, [])
  ∧ ∀ key rest,
      download_images w ((key, JObj d) :: rest) fs
      = download_images w rest (mkdir code fs).
Proof.
  intros Hcode Himages Hcount.
  assert (Hskip : download_product w (JObj d) fs = Ok (mkdir code fs, [])).
  { unfold download_product.
    cbn [subscript]. rewrite Hcode, Himages. cbn [bind as_path py_len].
    rewrite dir_exists_mkdir, glob_jpg_mkdir, Hcount, Nat.eqb_refl. done. }
  split; [exact Hskip|].
  intros key rest. cbn [download_images]. rewrite Hskip. cbn [bind fst snd].
  by destruct (download_images w rest (mkdir code fs)) as [[fs' reqs]| |].
Qed.

Lemma download_product_skip_witness :
  download_product image_server (JObj one_image_product) disk_with_image
  = Ok (mkdir "P1" disk_with_image, []).
Proof.
  apply (download_product_skip image_server disk_with_image one_image_product
           "P1" [JStr "https://h/m/DarkGray_Center_0_0_2400x2400/l/a.jpg"]).
  - reflexivity.
  - reflexivity.
  - vm_compute. reflexivity.
Defined.

(** C7 as stated fails: with one image listed and one file of another kind
    in the directory, the image is requested. *)
Lemma download_product_counts_jpg_only :
  ¬ skips_on_file_count.
Proof.
  intros H.
  destruct (H quiet_world disk_with_notes one_image_product "P1"
              [JStr "https://h/m/DarkGray_Center_0_0_2400x2400/l/a.jpg"])
    as [fs' Hfs'].
  - reflexivity.
  - reflexivity.
  - vm_compute. reflexivity.
  - vm_compute in Hfs'. discriminate.
Qed.

(* ===================================================================== *)
(** ** Persistence *)
(* ===================================================================== *)

(** C9. When the destination cannot be written, [save] raises, and so does
    every run whose crawl came to its end: a run never returns normally
    and the filesystem is never reported as saved. *)
Theorem save_failure_is_fatal (w : world) (g : gucci)
    (save_path : option string) (fs : filesystem) :
  writable w (default (gucci_path g) save_path) = false →
  (∀ st, save w g save_path st fs = Raise OSError)
  ∧ (∀ fuel st st',
       crawl fuel w g (lang_code g) st = Ok st' →
       run fuel w g save_path st fs = Raise OSError)
  ∧ (∀ fuel st r, run fuel w g save_path st fs ≠ Ok r).
Proof.
  intros Hw.
  assert (Hsave : ∀ st, save w g save_path st fs = Raise OSError).
  { intros st. unfold save. by rewrite Hw. }
  split; [exact Hsave|]. split.
  - intros fuel st st' Hcrawl. unfold run. rewrite Hcrawl. cbn [bind].
    by rewrite Hsave.
  - intros fuel st r. unfold run.
    destruct (crawl fuel w g (lang_code g) st) as [st'| |]; cbn [bind];
      [|done|done].
    by rewrite Hsave.
Qed.

Lemma save_failure_is_fatal_witness :
  run 5 read_only_world english None empty_state empty_disk = Raise OSError.
Proof.
  apply (proj1 (proj2 (save_failure_is_fatal read_only_world english None
                         empty_disk eq_refl))
           5%nat empty_state
           (sent (products_url "us/en" "jewelry-watches" 0)
              (sent (products_url "us/en" "men" 0)
                 (sent (products_url "us/en" "women" 0) empty_state)))).
  vm_compute. reflexivity.
Defined.

(* ===================================================================== *)
(** ** Pagination walker: one product, one page *)
(* ===================================================================== *)

Section Walker.

Context (w : world) (g : gucci).

Lemma Ok_inj {A} (a b : A) : Ok a = Ok b → a = b.
Proof. by intros [=]. Qed.

Lemma is_listing_products_url lang category page :
  is_listing_url (products_url lang category page) = true.
Proof. apply startswith_append. Qed.

Lemma is_listing_details_url code :
  is_listing_url (product_details_url code) = false.
Proof. reflexivity. Qed.



(** The enricher leaves the store alone and sends one request. *)
Lemma get_product_details_state code st r st1 :
  get_product_details w g code st = Ok (r, st1) →
  st1 = sent (product_details_url code) st.
Proof.
  unfold get_product_details.
  destruct (get w (product_details_url code)) as [data|].
  - destruct (enrich (language g) data); cbn [bind]; [|done|done].
    by intros [= _ <-].
  - by intros [= _ <-].
Qed.


(** What a product that went through did to the state: nothing, when its
    code was stored; otherwise one new record under its code, after at most
    one request, for its own detail. *)
Lemma process_product_inv st product st' :
  process_product w g st product = Ok st' →
  ∃ code,
    subscript product "productCode" = Ok (JStr code)
    ∧ ((Dict.mem code (products st) = true ∧ st' = st)
       ∨ (Dict.mem code (products st) = false
          ∧ ∃ record new,
              st' = {| products := Dict.set code record (products st);
                       initial_count := initial_count st;
                       requests := requests st ++ new |}
              ∧ (new = [] ∨ new = [product_details_url code]))).
Proof.
  unfold process_product.
  destruct (subscript product "productCode") as [c| |]; cbn [bind]; [|done|done].
  destruct c as [| | |code| |]; cbn [as_key bind]; try done.
  intros H. exists code. split; [done|].
  destruct (Dict.mem code (products st)) eqn:Hmem.
  { left. split; [done|]. by injection H as <-. }
  right. split; [done|].
  destruct (process_images w product) as [images| |]; cbn [bind] in H;
    [|done|done].
  destruct product as [| | | | |d]; try done.
  set (d' := Dict.pop_all listing_drop_keys _) in H. clearbody d'.
  destruct (product_details g).
  - destruct (get_product_details w g code st) as [[r st1]| |] eqn:Hd;
      cbn [bind fst snd] in H; [|done|done].
    apply get_product_details_state in Hd as ->.
    apply Ok_inj in H as <-.
    exists (JObj (Dict.update d' r)), [product_details_url code].
    split; [reflexivity | by right].
  - apply Ok_inj in H as <-. exists (JObj d'), []. rewrite app_nil_r.
    split; [reflexivity | by left].
Qed.




End Walker.

Section WalkerInvariants.

Context (w : world) (g : gucci).


Lemma process_product_page_requests st product st' :
  process_product w g st product = Ok st' →
  page_requests st' = page_requests st.
Proof.
  intros (code & _ & [[_ ->] | (Hmem & record & new & -> & Hnew)])%process_product_inv;
    [done|].
  unfold page_requests. cbn [requests]. rewrite List.filter_app.
  destruct Hnew as [-> | ->]; cbn [List.filter].
  - apply app_nil_r.
  - rewrite is_listing_details_url. apply app_nil_r.
Qed.





Lemma process_products_page_requests items st st' :
  process_products w g st items = Ok st' →
  page_requests st' = page_requests st.
Proof.
  revert st. induction items as [|p items IH]; intros st; cbn [process_products].
  - by intros <-%Ok_inj.
  - destruct (process_product w g st p) as [st1| |] eqn:Hp; cbn [bind];
      [|done|done].
    intros H. rewrite (IH _ H). by eapply process_product_page_requests.
Qed.




End WalkerInvariants.

(* ===================================================================== *)
(** ** Pagination walker: the page loop *)
(* ===================================================================== *)

Section PageLoop.

Context (w : world) (g : gucci) (category lang : string).

Notation url_of page := (products_url lang category page).
Notation loop fuel page nop st := (walk fuel w g category lang page nop st).

(** The loop test fails: the loop is over. *)
Lemma walk_stop fuel page nop st :
  int_lt page nop = Ok false → loop fuel page nop st = Ok st.
Proof. intros H. destruct fuel; cbn [walk]; by rewrite H. Qed.



(** The page has items: they are processed and the loop goes on with the
    next page and the page count just read. *)
Lemma walk_page fuel page nop st nop' items n elements :
  int_lt page nop = Ok true →
  page_returns w lang category page nop' items →
  py_len items = Ok (S n) →
  py_iter items = Ok elements →
  loop (S fuel) page nop st
  = let! st' := process_products w g (sent (url_of page) st) elements in
    loop fuel (page + 1) nop' st'.
Proof.
  intros Hlt (data & listing & Hget & Hn & Hl & Hi) Hlen Hiter. cbn [walk].
  rewrite Hlt, Hget. cbn [bind negb]. rewrite Hn, Hl. cbn [bind].
  rewrite Hi. cbn [bind]. rewrite Hlen. cbn [bind Nat.eqb]. by rewrite Hiter.
Qed.

(** The ways the loop returns normally. *)
Lemma walk_inv fuel page nop st st' :
  loop fuel page nop st = Ok st' →
  (int_lt page nop = Ok false ∧ st' = st)
  ∨ (int_lt page nop = Ok true
     ∧ ∃ fuel', fuel = S fuel'
        ∧ ((get w (url_of page) = None ∧ st' = sent (url_of page) st)
           ∨ (∃ nop' items,
                page_returns w lang category page nop' items
                ∧ py_len items = Ok O ∧ st' = sent (url_of page) st)
           ∨ (∃ nop' items n elements st1,
                page_returns w lang category page nop' items
                ∧ py_len items = Ok (S n)
                ∧ py_iter items = Ok elements
                ∧ process_products w g (sent (url_of page) st) elements = Ok st1
                ∧ loop fuel' (page + 1) nop' st1 = Ok st'))).
Proof.
  intros H.
  destruct (int_lt page nop) as [[|]| |] eqn:Hlt.
  2:{ left. rewrite walk_stop in H by done. split; [done|]. by apply Ok_inj in H. }
  2,3: destruct fuel; cbn [walk] in H; by rewrite Hlt in H.
  right. split; [done|].
  destruct fuel as [|fuel']; cbn [walk] in H; rewrite Hlt in H; cbn [bind negb] in H;
    [done|].
  exists fuel'. split; [done|].
  destruct (get w (url_of page)) as [data|] eqn:Hget.
  2:{ left. split; [done|]. by apply Ok_inj in H. }
  right.
  destruct (subscript data "numberOfPages") as [nop'| |] eqn:Hn;
    cbn [bind] in H; [|done|done].
  destruct (subscript data "products") as [listing| |] eqn:Hl;
    cbn [bind] in H; [|done|done].
  destruct (subscript listing "items") as [items| |] eqn:Hi;
    cbn [bind] in H; [|done|done].
  assert (page_returns w lang category page nop' items) as Hpage
    by (by exists data, listing).
  destruct (py_len items) as [[|n]| |] eqn:Hlen; cbn [bind Nat.eqb] in H;
    [| |done|done].
  { left. exists nop', items. split; [done|]. split; [done|]. by apply Ok_inj in H. }
  right.
  destruct (py_iter items) as [elements| |] eqn:Hiter; cbn [bind] in H;
    [|done|done].
  destruct (process_products w g (sent (url_of page) st) elements)
    as [st1| |] eqn:Hp; cbn [bind] in H; [|done|done].
  by exists nop', items, n, elements, st1.
Qed.

Lemma page_requests_sent page st :
  page_requests (sent (url_of page) st) = page_requests st ++ [url_of page].
Proof.
  unfold page_requests, sent. cbn [requests]. rewrite List.filter_app.
  cbn [List.filter]. by rewrite is_listing_products_url.
Qed.



End PageLoop.

Section Pagination.

Context (w : world) (g : gucci) (category lang : string).




End Pagination.



(* ===================================================================== *)
(** ** Incomplete responses *)
(* ===================================================================== *)

Section Incomplete.

Context (w : world) (g : gucci).

Lemma process_images_missing d k :
  k ∈ listing_image_keys →
  Dict.lookup k d = None →
  ∃ k', k' ∈ listing_image_keys
        ∧ process_images w (JObj d) = Raise (KeyError k').
Proof.
  intros Hk Hnone. unfold process_images. cbn [subscript].
  destruct (Dict.lookup "primaryImage" d) eqn:Hp; cbn [bind].
  2:{ exists "primaryImage". split; [|done]. unfold listing_image_keys. set_solver. }
  destruct (Dict.lookup "alternateGalleryImages" d) eqn:Hg; cbn [bind].
  2:{ exists "alternateGalleryImages". split; [|done].
      unfold listing_image_keys. set_solver. }
  destruct (Dict.lookup "alternateImage" d) eqn:Ha; cbn [bind].
  2:{ exists "alternateImage". split; [|done].
      unfold listing_image_keys. set_solver. }
  exfalso. unfold listing_image_keys in Hk.
  repeat (apply elem_of_cons in Hk as [->|Hk]; [congruence|]).
  by apply elem_of_nil in Hk.
Qed.

Lemma process_product_no_code st d :
  Dict.lookup "productCode" d = None →
  process_product w g st (JObj d) = Raise (KeyError "productCode").
Proof. intros H. unfold process_product. cbn [subscript]. by rewrite H. Qed.

Lemma process_product_stored st d code :
  Dict.lookup "productCode" d = Some (JStr code) →
  Dict.mem code (products st) = true →
  process_product w g st (JObj d) = Ok st.
Proof.
  intros Hc Hm. unfold process_product. cbn [subscript]. rewrite Hc.
  cbn [bind as_key]. by rewrite Hm.
Qed.

Lemma process_product_no_image st d code k :
  Dict.lookup "productCode" d = Some (JStr code) →
  Dict.mem code (products st) = false →
  k ∈ listing_image_keys →
  Dict.lookup k d = None →
  ∃ k', k' ∈ listing_image_keys
        ∧ process_product w g st (JObj d) = Raise (KeyError k').
Proof.
  intros Hc Hm Hk Hnone.
  destruct (process_images_missing d k Hk Hnone) as (k' & Hk' & Himg).
  exists k'. split; [done|]. unfold process_product.
  cbn [subscript]. rewrite Hc. cbn [bind as_key]. rewrite Hm, Himg. done.
Qed.

(** An exception of one item ends the loop over the items. *)
Lemma process_products_raise st pre p post st1 e :
  process_products w g st pre = Ok st1 →
  process_product w g st1 p = Raise e →
  process_products w g st (pre ++ p :: post) = Raise e.
Proof.
  revert st. induction pre as [|x pre IH]; intros st; cbn [app process_products].
  - intros <-%Ok_inj Hp. by rewrite Hp.
  - destruct (process_product w g st x) as [sx| |]; cbn [bind]; [|done|done].
    apply IH.
Qed.

Lemma crawl_categories_raise fuel lang pre category post st st1 e :
  crawl_categories fuel w g lang pre st = Ok st1 →
  get_products fuel w g category lang st1 = Raise e →
  crawl_categories fuel w g lang (pre ++ category :: post) st = Raise e.
Proof.
  revert st. induction pre as [|x pre IH]; intros st; cbn [app crawl_categories].
  - intros <-%Ok_inj Hp. by rewrite Hp.
  - destruct (get_products fuel w g x lang st) as [sx| |]; cbn [bind];
      [|done|done].
    apply IH.
Qed.

Lemma crawl_raise fuel pre lang post st st1 e :
  crawl fuel w g pre st = Ok st1 →
  crawl_categories fuel w g lang (categories g) st1 = Raise e →
  crawl fuel w g (pre ++ lang :: post) st = Raise e.
Proof.
  revert st. induction pre as [|x pre IH]; intros st; cbn [app crawl].
  - intros <-%Ok_inj Hp. by rewrite Hp.
  - destruct (crawl_categories fuel w g x (categories g) st) as [sx| |];
      cbn [bind]; [|done|done].
    apply IH.
Qed.

End Incomplete.

(** C10 (amended). The crawl loop assumes structurally complete responses.
    When a page fetch succeeds but the returned object lacks
    [numberOfPages] or [products], or a returned item lacks [productCode],
    or a returned item whose product code is not yet in the store lacks
    [primaryImage], [alternateImage] or [alternateGalleryImages],
    processing raises a key-lookup error, which ends the page loop, the
    crawl and the run.  An item whose code is already stored is skipped
    before its image fields are read. *)
Theorem incomplete_response_raises (w : world) (g : gucci) :
  (∀ category lang fuel page number_of_pages st d,
     int_lt page number_of_pages = Ok true →
     get w (products_url lang category page) = Some (JObj d) →
     (Dict.lookup "numberOfPages" d = None →
      walk (S fuel) w g category lang page number_of_pages st
      = Raise (KeyError "numberOfPages"))
     ∧ (is_Some (Dict.lookup "numberOfPages" d) →
        Dict.lookup "products" d = None →
        walk (S fuel) w g category lang page number_of_pages st
        = Raise (KeyError "products")))
  ∧ (∀ st d,
       Dict.lookup "productCode" d = None →
       process_product w g st (JObj d) = Raise (KeyError "productCode"))
  ∧ (∀ st d code k,
       Dict.lookup "productCode" d = Some (JStr code) →
       Dict.mem code (products st) = false →
       k ∈ listing_image_keys →
       Dict.lookup k d = None →
       ∃ k', k' ∈ listing_image_keys
             ∧ process_product w g st (JObj d) = Raise (KeyError k'))
  ∧ (∀ st d code,
       Dict.lookup "productCode" d = Some (JStr code) →
       Dict.mem code (products st) = true →
       process_product w g st (JObj d) = Ok st)
  ∧ (∀ st pre p post st1 e,
       process_products w g st pre = Ok st1 →
       process_product w g st1 p = Raise e →
       process_products w g st (pre ++ p :: post) = Raise e)
  ∧ (∀ category lang fuel page number_of_pages st announced items e,
       int_lt page number_of_pages = Ok true →
       page_returns w lang category page announced (JList items) →
       process_products w g (sent (products_url lang category page) st) items
       = Raise e →
       walk (S fuel) w g category lang page number_of_pages st = Raise e)
  ∧ (∀ fuel lang pre category post st st1 e,
       crawl_categories fuel w g lang pre st = Ok st1 →
       get_products fuel w g category lang st1 = Raise e →
       crawl_categories fuel w g lang (pre ++ category :: post) st = Raise e)
  ∧ (∀ fuel pre lang post st st1 e,
       crawl fuel w g pre st = Ok st1 →
       crawl_categories fuel w g lang (categories g) st1 = Raise e →
       crawl fuel w g (pre ++ lang :: post) st = Raise e)
  ∧ (∀ fuel save_path st fs e,
       crawl fuel w g (lang_code g) st = Raise e →
       run fuel w g save_path st fs = Raise e).
Proof.
  split; [|split; [|split; [|split; [|split; [|split; [|split; [|split]]]]]]].
  - intros category lang fuel page nop st d Hlt Hget. split.
    + intros Hn. cbn [walk]. rewrite Hlt, Hget. cbn [bind negb subscript].
      by rewrite Hn.
    + intros [n Hn] Hp. cbn [walk]. rewrite Hlt, Hget.
      cbn [bind negb subscript]. rewrite Hn. cbn [bind]. by rewrite Hp.
  - apply process_product_no_code.
  - apply process_product_no_image.
  - apply process_product_stored.
  - apply process_products_raise.
  - intros category lang fuel page nop st announced items e Hlt Hpage Hraise.
    destruct items as [|p items]; [done|].
    rewrite (walk_page _ _ _ _ _ _ _ _ announced (JList (p :: items))
               (length items) (p :: items) Hlt Hpage eq_refl eq_refl).
    by rewrite Hraise.
  - apply crawl_categories_raise.
  - apply crawl_raise.
  - intros fuel save_path st fs e Hc. unfold run. by rewrite Hc.
Qed.

Lemma incomplete_response_raises_witness :
  ∃ k', k' ∈ listing_image_keys
        ∧ process_product quiet_world english empty_state (JObj bare_item)
          = Raise (KeyError k').
Proof.
  apply (proj1 (proj2 (proj2 (incomplete_response_raises quiet_world english)))
           empty_state bare_item "P1" "primaryImage").
  - reflexivity.
  - reflexivity.
  - unfold listing_image_keys. apply list_elem_of_here.
  - reflexivity.
Defined.

(** C10 as stated fails for an item whose product code is already stored:
    it is skipped, its missing image fields are never read. *)
Lemma stored_incomplete_item_is_skipped :
  ¬ incomplete_item_always_raises.
Proof.
  intros H.
  destruct (H quiet_world english store_with_P1 bare_item "primaryImage")
    as [k' Hk'].
  - unfold listing_image_keys. set_solver.
  - reflexivity.
  - vm_compute in Hk'. discriminate.
Qed.

(* ===================================================================== *)
(** ** Incremental crawl *)
(* ===================================================================== *)

Section Incremental.

Context (fuel : nat) (w : world) (g : gucci).










End Incremental.



(* ===================================================================== *)
(** * Further properties of the code *)
(* ===================================================================== *)

(* ===================================================================== *)
(** ** HTTP fetcher and media endpoint *)
(* ===================================================================== *)



Section Media.

Context (w : world).

Lemma mapM_Forall2 {A B} (f : A → result B) (l : list A) (r : list B) :
  Forall2 (λ x y, f x = Ok y) l r → mapM f l = Ok r.
Proof.
  induction 1 as [|x y l r Hxy _ IH]; [done|].
  cbn [mapM]. by rewrite Hxy, IH.
Qed.

Lemma mapM_inv {A B} (f : A → result B) (l : list A) (r : list B) :
  mapM f l = Ok r → Forall2 (λ x y, f x = Ok y) l r.
Proof.
  revert r. induction l as [|x l IH]; intros r; cbn [mapM].
  - intros <-%Ok_inj. constructor.
  - destruct (f x) as [y| |] eqn:Hy; cbn [bind]; [|done|done].
    destruct (mapM f l) as [ys| |]; cbn [bind]; [|done|done].
    intros <-%Ok_inj. constructor; [done | by apply IH].
Qed.

(** The placeholder, where it occurs once, is what gets replaced; a URL
    without it is returned as it is. *)
Lemma substitute_single pre post :
  PyStr.occurrences "$format$" (pre +:+ "$format$" +:+ post)
    = [String.length pre] →
  PyStr.replace (pre +:+ "$format$" +:+ post) "$format$" image_style
  = pre +:+ image_style +:+ post.
Proof. intros H. by apply (replace_scan_single _ _ _ _ O). Qed.

Lemma substitute_none s :
  PyStr.occurrences "$format$" s = [] →
  PyStr.replace s "$format$" image_style = s.
Proof. intros H. by apply (replace_scan_none _ _ O). Qed.

End Media.

(** X2. [get_media] sends one request to the media endpoint.  On a failed
    fetch it returns the empty list.  On a list of entries that each carry
    a string [url] it returns one URL per entry, in order, with the
    placeholder replaced: a URL [pre$format$post] in which the placeholder
    occurs once becomes [pre] + style constant + [post], and a URL without
    the placeholder is returned unchanged. *)
Theorem get_media_substitutes (w : world) (code : string) (st : state) :
  (get w (product_media_url code) = None →
     get_media w code st = Ok ([], sent (product_media_url code) st))
  ∧ (∀ entries urls,
       get w (product_media_url code) = Some (JList entries) →
       Forall2 (λ e u, subscript e "url" = Ok (JStr u)) entries urls →
       get_media w code st
       = Ok (map (λ u, PyStr.replace u "$format$" image_style) urls,
             sent (product_media_url code) st))
  ∧ (∀ pre post,
       PyStr.occurrences "$format$" (pre +:+ "$format$" +:+ post)
         = [String.length pre] →
       PyStr.replace (pre +:+ "$format$" +:+ post) "$format$" image_style
       = pre +:+ image_style +:+ post)
  ∧ (∀ s,
       PyStr.occurrences "$format$" s = [] →
       PyStr.replace s "$format$" image_style = s).
Proof.
  split; [|split; [|split]].
  - intros Hget. unfold get_media. by rewrite Hget.
  - intros entries urls Hget Hall. unfold get_media. rewrite Hget.
    cbn [py_iter bind].
    rewrite (mapM_Forall2 media_url entries
               (map (λ u, PyStr.replace u "$format$" image_style) urls)); [done|].
    clear Hget. induction Hall as [|e u entries urls He _ IH]; [constructor|].
    cbn [map]. constructor; [|exact IH].
    unfold media_url. rewrite He. done.
  - apply substitute_single.
  - apply substitute_none.
Qed.

Lemma get_media_substitutes_witness :
  get_media
    (serving [(product_media_url "P1",
               JList [JObj [("url", JStr "//m.example.com/$format$/a.jpg")];
                      JObj [("url", JStr "//m.example.com/plain/b.jpg")]])])
    "P1" empty_state
  = Ok (map (λ u, PyStr.replace u "$format$" image_style)
          ["//m.example.com/$format$/a.jpg"; "//m.example.com/plain/b.jpg"],
        sent (product_media_url "P1") empty_state).
Proof.
  apply (proj1 (proj2 (get_media_substitutes _ "P1" empty_state))
           [JObj [("url", JStr "//m.example.com/$format$/a.jpg")];
            JObj [("url", JStr "//m.example.com/plain/b.jpg")]]).
  - reflexivity.
  - repeat constructor.
Defined.

(* ===================================================================== *)
(** ** URL rewrite: the index bound *)
(* ===================================================================== *)

Lemma length_split sep s :
  length (PyStr.split sep s) = S (count_char sep s).
Proof.
  induction s as [|c s IH]; [done|].
  cbn [PyStr.split count_char]. destruct (Ascii.eqb c sep).
  - cbn [length]. by rewrite IH.
  - pose proof (split_nonempty sep s).
    destruct (PyStr.split sep s) as [|x l]; [done|].
    cbn [length] in *. by rewrite IH.
Qed.

(** X3. [process_url] raises [IndexError] exactly on a URL with fewer than
    four slashes; on every other URL it returns a string that starts with
    [https:]. *)
Theorem process_url_index_error (url : string) :
  (process_url url = Raise IndexError ↔ (count_char slash url < 4)%nat)
  ∧ ((4 ≤ count_char slash url)%nat →
     ∃ rest, process_url url = Ok ("https:" +:+ rest)).
Proof.
  unfold process_url.
  destruct (PyStr.split slash url !! 4%nat) as [style|] eqn:Hs.
  - apply lookup_lt_Some in Hs. rewrite length_split in Hs.
    split; [split; [done | lia]|]. intros _. eauto.
  - apply lookup_ge_None in Hs. rewrite length_split in Hs.
    split; [split; [lia | done]|]. lia.
Qed.

Lemma process_url_index_error_witness :
  ∃ rest, process_url "//h/d/s/x.jpg" = Ok ("https:" +:+ rest).
Proof.
  apply (proj2 (process_url_index_error "//h/d/s/x.jpg")).
  vm_compute. lia.
Defined.

(* ===================================================================== *)
(** ** Deduplication: counting, order, idempotence *)
(* ===================================================================== *)

Lemma size_add (a : string) (X : gset string) :
  a ∉ X → size ({[a]} ∪ X) = S (size X).
Proof.
  intros. rewrite size_union by set_solver. by rewrite size_singleton.
Qed.

Section DedupMore.

Implicit Types (images : list string) (seen : gset string).

Lemma dedup_loop_length images seen :
  length (dedup_loop images seen [])
  = size (list_to_set (map derived_filename images) ∖ seen : gset string).
Proof.
  revert seen. induction images as [|u rest IH]; intros seen.
  - cbn [map list_to_set dedup_loop length].
    replace (∅ ∖ seen : gset string) with (∅ : gset string) by set_solver.
    by rewrite size_empty.
  - rewrite dedup_loop_cons. cbn [map list_to_set]. case_decide as Hu.
    + rewrite IH. f_equal. set_solver.
    + cbn [length]. rewrite IH.
      replace (({[derived_filename u]} ∪ list_to_set (map derived_filename rest))
                 ∖ seen : gset string)
        with ({[derived_filename u]}
                ∪ (list_to_set (map derived_filename rest)
                     ∖ ({[derived_filename u]} ∪ seen)) : gset string).
      * by rewrite size_add by set_solver.
      * apply set_eq. intros x.
        destruct (decide (x = derived_filename u)); set_solver.
Qed.

(** Images with pairwise different names are all kept, in order. *)
Lemma dedup_loop_distinct images seen :
  NoDup (map derived_filename images) →
  (∀ u, u ∈ images → derived_filename u ∉ seen) →
  dedup_loop images seen [] = images.
Proof.
  revert seen. induction images as [|u rest IH]; intros seen Hnd Hseen; [done|].
  cbn [map] in Hnd. apply NoDup_cons in Hnd as [Hu Hnd].
  rewrite dedup_loop_cons.
  rewrite decide_False by (apply Hseen; by left).
  f_equal. apply IH; [done|].
  intros v Hv [Heq%elem_of_singleton | Hin]%elem_of_union.
  - apply Hu. rewrite <- Heq. by apply list_elem_of_fmap_2.
  - apply (Hseen v); [by right | done].
Qed.

(** What is kept is a subsequence of the input. *)
Lemma dedup_loop_sublist images seen :
  sublist (dedup_loop images seen []) images.
Proof.
  revert seen. induction images as [|u rest IH]; intros seen; [done|].
  rewrite dedup_loop_cons. case_decide.
  - apply sublist_cons. apply IH.
  - apply sublist_skip. apply IH.
Qed.

End DedupMore.

(** X4. The number of images [deduplicate_images] returns is the number of
    different derived filenames of its input, and the images kept are a
    subsequence of the input (before the set is enumerated). *)
Theorem deduplicate_images_count (w : world) (images : list string) :
  set_order w (dedup_kept images) ≡ₚ dedup_kept images →
  length (deduplicate_images w images)
  = size (list_to_set (map derived_filename images) : gset string)
  ∧ sublist (dedup_kept images) images
  ∧ deduplicate_images w images ≡ₚ dedup_kept images.
Proof.
  intros Hperm. unfold deduplicate_images. split; [|split; [|done]].
  - rewrite Hperm. unfold dedup_kept. rewrite dedup_loop_length.
    f_equal. set_solver.
  - apply dedup_loop_sublist.
Qed.

Lemma deduplicate_images_count_witness :
  length (deduplicate_images quiet_world
            ["https://h/A-1.jpg"; "https://h/B.jpg"; "https://h/A-2.jpg"])
  = size (list_to_set
            (map derived_filename
               ["https://h/A-1.jpg"; "https://h/B.jpg"; "https://h/A-2.jpg"])
          : gset string).
Proof.
  apply (deduplicate_images_count quiet_world
           ["https://h/A-1.jpg"; "https://h/B.jpg"; "https://h/A-2.jpg"]).
  reflexivity.
Defined.

(** X5. Deduplication is idempotent: run on its own output it drops
    nothing.  It drops nothing either from a list whose derived filenames
    are pairwise different, and returns the empty list on the empty
    list. *)
Theorem deduplicate_images_idempotent (w : world) :
  (∀ l, set_order w l ≡ₚ l) →
  (∀ images,
     deduplicate_images w (deduplicate_images w images)
     ≡ₚ deduplicate_images w images)
  ∧ (∀ images,
       NoDup (map derived_filename images) →
       deduplicate_images w images ≡ₚ images)
  ∧ deduplicate_images w [] = [].
Proof.
  intros Hperm.
  assert (Hdistinct : ∀ images,
    NoDup (map derived_filename images) → deduplicate_images w images ≡ₚ images).
  { intros images Hnd. unfold deduplicate_images, dedup_kept.
    rewrite dedup_loop_distinct; [apply Hperm | done | set_solver]. }
  split; [|split; [exact Hdistinct|]].
  - intros images. apply Hdistinct.
    unfold deduplicate_images. rewrite (Hperm (dedup_kept images)).
    apply dedup_loop_names_NoDup.
  - unfold deduplicate_images, dedup_kept. cbn [dedup_loop].
    apply Permutation_nil_r. apply Hperm.
Qed.

Lemma deduplicate_images_idempotent_witness :
  deduplicate_images quiet_world
    (deduplicate_images quiet_world
       ["https://h/A-1.jpg"; "https://h/B.jpg"; "https://h/A-2.jpg"])
  ≡ₚ deduplicate_images quiet_world
       ["https://h/A-1.jpg"; "https://h/B.jpg"; "https://h/A-2.jpg"].
Proof.
  apply (proj1 (deduplicate_images_idempotent quiet_world
                  (λ l, reflexivity (R := Permutation) l))).
Defined.

(* ===================================================================== *)
(** ** Product normalizer: the image list and the stored record *)
(* ===================================================================== *)

Section Normalizer.

Lemma process_url_https url out :
  process_url url = Ok out → PyStr.startswith "https:" out = true.
Proof.
  unfold process_url. destruct (PyStr.split slash url !! 4%nat); [|done].
  intros <-%Ok_inj. apply startswith_append.
Qed.

Lemma dedup_kept_nonempty u rest : dedup_kept (u :: rest) ≠ [].
Proof.
  unfold dedup_kept. rewrite dedup_loop_cons.
  by rewrite decide_False by set_solver.
Qed.

Lemma lookup_pop_eq k (d : dict) :
  dict_wf d → Dict.lookup k (Dict.pop k d) = None.
Proof.
  induction d as [|[k1 v1] d IH]; [done|].
  intros [Hk1 Hd]%NoDup_cons. cbn [fst] in Hk1. cbn [Dict.pop].
  destruct (String.eqb_spec k1 k) as [->|Hne].
  - by apply lookup_None_keys.
  - cbn [Dict.lookup]. rewrite (proj2 (String.eqb_neq _ _)) by done.
    by apply IH.
Qed.

Lemma keys_pop_sublist k (d : dict) :
  sublist (map fst (Dict.pop k d)) (map fst d).
Proof.
  induction d as [|[k1 v1] d IH]; [done|]. cbn [Dict.pop].
  destruct (String.eqb k1 k); cbn [map fst].
  - by apply sublist_cons.
  - by apply sublist_skip.
Qed.

Lemma wf_pop k (d : dict) : dict_wf d → dict_wf (Dict.pop k d).
Proof.
  unfold dict_wf. intros Hd. eapply sublist_NoDup; [exact Hd|].
  apply keys_pop_sublist.
Qed.

Lemma Forall2_elem_of_r {A B} (P : A → B → Prop) (l : list A) (r : list B) y :
  Forall2 P l r → y ∈ r → ∃ x, x ∈ l ∧ P x y.
Proof.
  induction 1 as [|a b l r Hab _ IH]; [by intros ?%elem_of_nil|].
  intros [->|Hy]%elem_of_cons.
  - exists a. split; [by left | done].
  - destruct (IH Hy) as (x & Hx & Hp). exists x. split; [by right | done].
Qed.

(** After the loop of pops no popped key is left. *)
Lemma lookup_pop_all_in k ks (d : dict) :
  dict_wf d → k ∈ ks → Dict.lookup k (Dict.pop_all ks d) = None.
Proof.
  unfold Dict.pop_all. revert d.
  induction ks as [|k' ks IH]; intros d Hd Hk; [by apply elem_of_nil in Hk|].
  cbn [fold_left].
  destruct (decide (k = k')) as [->|Hne].
  - apply (lookup_pop_all_None k' ks). by apply lookup_pop_eq.
  - apply elem_of_cons in Hk as [?|Hk]; [done|].
    apply IH; [by apply wf_pop | done].
Qed.

End Normalizer.

(** X6. [process_images] returns at least one image and at most two more
    than the gallery holds, and every image it returns starts with
    [https:]. *)
Theorem process_images_shape (w : world) (product gallery_field : json)
    (gallery : list json) (images : list string) :
  (∀ l, set_order w l ≡ₚ l) →
  subscript product "alternateGalleryImages" = Ok gallery_field →
  py_iter gallery_field = Ok gallery →
  process_images w product = Ok images →
  (1 ≤ length images ≤ length gallery + 2)%nat
  ∧ Forall (λ u, PyStr.startswith "https:" u = true) images.
Proof.
  intros Hperm Hg Hiter. unfold process_images. rewrite Hg.
  destruct (subscript product "primaryImage") as [p| |]; cbn [bind]; [|done|done].
  destruct (subscript product "alternateImage") as [a| |]; cbn [bind];
    [|done|done].
  rewrite Hiter. cbn [bind].
  destruct (mapM _ gallery) as [srcs| |] eqn:Hsrcs; cbn [bind]; [|done|done].
  destruct (subscript p "src") as [ps| |]; cbn [bind]; [|done|done].
  destruct (subscript a "src") as [as_| |]; cbn [bind]; [|done|done].
  destruct (mapM _ (srcs ++ [ps; as_])) as [urls| |] eqn:Hurls; cbn [bind];
    [|done|done].
  intros <-%Ok_inj.
  apply mapM_inv in Hsrcs, Hurls.
  apply Forall2_length in Hsrcs. pose proof (Forall2_length _ _ _ Hurls) as Hlen.
  rewrite length_app in Hlen. cbn [length] in Hlen.
  unfold deduplicate_images. rewrite (Hperm (dedup_kept urls)).
  split; [split|].
  - destruct urls as [|u urls]; [cbn [length] in Hlen; lia|].
    pose proof (dedup_kept_nonempty u urls).
    destruct (dedup_kept (u :: urls)); [done | cbn [length]; lia].
  - pose proof (sublist_length _ _ (dedup_loop_sublist urls ∅)) as Hsub.
    unfold dedup_kept. lia.
  - apply Forall_forall. intros u Hu.
    apply dedup_loop_sound in Hu as [Hu _].
    destruct (Forall2_elem_of_r _ _ _ _ Hurls Hu) as (x & _ & Hx).
    destruct (as_str x) as [s| |]; cbn [bind] in Hx; [|done|done].
    by apply process_url_https in Hx.
Qed.

Lemma process_images_shape_witness :
  (1 ≤ length ["https://media.example.com/is/DarkGray_Center_0_0_2400x2400/lg/P0_side.jpg";
               "https://media.example.com/is/DarkGray_Center_0_0_2400x2400/lg/P0-1.jpg"]
     ≤ length [image "P0_side.jpg"] + 2)%nat
  ∧ Forall (λ u, PyStr.startswith "https:" u = true)
      ["https://media.example.com/is/DarkGray_Center_0_0_2400x2400/lg/P0_side.jpg";
       "https://media.example.com/is/DarkGray_Center_0_0_2400x2400/lg/P0-1.jpg"].
Proof.
  apply (process_images_shape quiet_world (listing_item "P0")
           (JList [image "P0_side.jpg"]) [image "P0_side.jpg"]).
  - intros l. reflexivity.
  - reflexivity.
  - reflexivity.
  - reflexivity.
Defined.

Section StoredRecord.

Context (w : world) (g : gucci).

Lemma set_absent k v (d : dict) :
  Dict.mem k d = false → Dict.set k v d = d ++ [(k, v)].
Proof.
  unfold Dict.mem. induction d as [|[k1 v1] d IH]; [done|].
  cbn [Dict.lookup Dict.set app]. destruct (String.eqb k1 k); [done|].
  intros H. by rewrite IH.
Qed.

Lemma wf_rename_and_drop (data : dict) : dict_wf (rename_and_drop data).
Proof.
  unfold rename_and_drop.
  assert (H : ∀ acc : dict, dict_wf acc →
    dict_wf (fold_left
      (fun acc kv =>
         if in_list (fst kv) details_drop_keys then acc
         else Dict.set (rename_get rename (fst kv)) (snd kv) acc)
      data acc)).
  { induction data as [|[k v] data IH]; intros acc Hacc; [done|].
    cbn [fold_left fst snd]. apply IH.
    destruct (in_list k details_drop_keys); [done | by apply wf_set]. }
  apply H. constructor.
Qed.

Lemma wf_pop_all ks (d : dict) : dict_wf d → dict_wf (Dict.pop_all ks d).
Proof.
  unfold Dict.pop_all. revert d.
  induction ks as [|k ks IH]; intros d Hd; [done|].
  cbn [fold_left]. apply IH. by apply wf_pop.
Qed.

(** The fields the enricher returns have distinct names. *)
Lemma get_product_details_wf code st r st1 :
  get_product_details w g code st = Ok (r, st1) → dict_wf r.
Proof.
  unfold get_product_details.
  destruct (get w (product_details_url code)) as [data|].
  2:{ intros [= <- _]. constructor. }
  destruct data as [| | | | |d]; try done. cbn [enrich].
  destruct (py_iter _) as [ts| |]; cbn [bind]; [|done|done].
  destruct (merge_translations (language g) d ts) as [m| |]; cbn [bind];
    [|done|done].
  intros H. apply Ok_inj in H. apply (f_equal fst) in H. cbn [fst] in H.
  subst r. apply wf_pop_all, wf_rename_and_drop.
Qed.

(** A new product: what is read, what is stored, what is sent. *)
Lemma process_product_new st d code st' :
  Dict.lookup "productCode" d = Some (JStr code) →
  Dict.mem code (products st) = false →
  process_product w g st (JObj d) = Ok st' →
  ∃ images details,
    process_images w (JObj d) = Ok images
    ∧ (product_details g = false → details = [])
    ∧ (product_details g = true →
       get_product_details w g code st
       = Ok (details, sent (product_details_url code) st))
    ∧ st' = {| products :=
                 products st
                 ++ [(code,
                      JObj (Dict.update
                              (Dict.pop_all listing_drop_keys
                                 (Dict.set "images" (JList (map JStr images)) d))
                              details))];
               initial_count := initial_count st;
               requests :=
                 requests st
                 ++ (if product_details g then [product_details_url code]
                     else []) |}.
Proof.
  intros Hcode Hmem. unfold process_product.
  cbn [subscript]. rewrite Hcode. cbn [bind as_key]. rewrite Hmem.
  destruct (process_images w (JObj d)) as [images| |]; cbn [bind]; [|done|done].
  set (d' := Dict.pop_all listing_drop_keys _).
  destruct (product_details g).
  - destruct (get_product_details w g code st) as [[r st1]| |] eqn:Hd;
      cbn [bind fst snd]; [|done|done].
    pose proof (get_product_details_state _ _ _ _ _ _ Hd) as ->.
    intros <-%Ok_inj. exists images, r. split; [done|]. split; [done|].
    split; [done|]. unfold store, sent. cbn [products initial_count requests].
    by rewrite set_absent.
  - intros <-%Ok_inj. exists images, []. split; [done|]. split; [done|].
    split; [done|]. unfold store. rewrite set_absent by done.
    by rewrite app_nil_r.
Qed.

(** The fields of the normalized listing item. *)
Lemma lookup_normalized k v (d : dict) :
  dict_wf d →
  Dict.lookup k (Dict.pop_all listing_drop_keys (Dict.set "images" v d))
  = if String.eqb k "images" then Some v
    else if in_list k listing_drop_keys then None
    else Dict.lookup k d.
Proof.
  intros Hd. destruct (String.eqb_spec k "images") as [->|Hne].
  - rewrite lookup_pop_all_other.
    + by rewrite lookup_set, String.eqb_refl.
    + intros H%in_list_elem_of. vm_compute in H. discriminate.
  - destruct (in_list k listing_drop_keys) eqn:Hk.
    + apply lookup_pop_all_in; [by apply wf_set | by apply in_list_elem_of].
    + rewrite lookup_pop_all_other.
      * rewrite lookup_set. by rewrite (proj2 (String.eqb_neq _ _)) by done.
      * intros H%in_list_elem_of. congruence.
Qed.

End StoredRecord.

(** X7. The record stored for a new product is the listing item with
    [images] set to the processed image list and the presentation keys
    removed, overridden field by field by what the enricher returned
    (nothing when details are off).  It is appended at the end of the
    store. *)
Theorem process_product_record (w : world) (g : gucci) (st st' : state)
    (d : dict) (code : string) :
  dict_wf d →
  Dict.lookup "productCode" d = Some (JStr code) →
  Dict.mem code (products st) = false →
  process_product w g st (JObj d) = Ok st' →
  ∃ images details record,
    process_images w (JObj d) = Ok images
    ∧ products st' = products st ++ [(code, JObj record)]
    ∧ (product_details g = false → details = [])
    ∧ (product_details g = true →
       get_product_details w g code st
       = Ok (details, sent (product_details_url code) st))
    ∧ ∀ k,
        Dict.lookup k record
        = match Dict.lookup k details with
          | Some v => Some v
          | None =>
              if String.eqb k "images" then Some (JList (map JStr images))
              else if in_list k listing_drop_keys then None
              else Dict.lookup k d
          end.
Proof.
  intros Hd Hcode Hmem H.
  destruct (process_product_new w g st d code st' Hcode Hmem H)
    as (images & details & Himg & Hoff & Hon & ->).
  exists images, details. eexists. split; [done|]. split; [reflexivity|].
  split; [done|]. split; [done|].
  intros k. rewrite lookup_update.
  - by rewrite lookup_normalized.
  - destruct (product_details g) eqn:Hpd.
    + eapply get_product_details_wf. by apply Hon.
    + rewrite Hoff by done. constructor.
Qed.

Lemma process_product_record_witness :
  ∃ images details record,
    process_images catalog (JObj [("productCode", JStr "P9");
                                  ("label", JStr "new");
                                  ("primaryImage", image "P9-1.jpg");
                                  ("alternateImage", image "P9-2.jpg");
                                  ("alternateGalleryImages", JList [])])
    = Ok images
    ∧ products
        {| products := [("P9", JObj [("productCode", JStr "P9");
              ("images", JList (map JStr
                 ["https://media.example.com/is/DarkGray_Center_0_0_2400x2400/lg/P9-1.jpg"]))])];
           initial_count := 0; requests := [] |}
      = products empty_state ++ [("P9", JObj record)]
    ∧ (product_details english = false → details = [])
    ∧ (product_details english = true →
       get_product_details catalog english "P9" empty_state
       = Ok (details, sent (product_details_url "P9") empty_state))
    ∧ ∀ k,
        Dict.lookup k record
        = match Dict.lookup k details with
          | Some v => Some v
          | None =>
              if String.eqb k "images" then Some (JList (map JStr images))
              else if in_list k listing_drop_keys then None
              else Dict.lookup k [("productCode", JStr "P9");
                                  ("label", JStr "new");
                                  ("primaryImage", image "P9-1.jpg");
                                  ("alternateImage", image "P9-2.jpg");
                                  ("alternateGalleryImages", JList [])]
          end.
Proof.
  apply (process_product_record catalog english empty_state).
  - apply (bool_decide_unpack _). vm_compute. reflexivity.
  - reflexivity.
  - reflexivity.
  - vm_compute. reflexivity.
Defined.

(* ===================================================================== *)
(** ** The crawl as a whole: what every step keeps *)
(* ===================================================================== *)

Section CrawlRelates.

Context (fuel : nat) (w : world) (g : gucci).
Context (R : state → state → Prop).
Context (R_refl : ∀ st, R st st).
Context (R_trans : ∀ st1 st2 st3, R st1 st2 → R st2 st3 → R st1 st3).
Context (R_page : ∀ st lang category page,
                    R st (sent (products_url lang category page) st)).
Context (R_product : ∀ st product st',
                       process_product w g st product = Ok st' → R st st').

Lemma process_products_relates items st st' :
  process_products w g st items = Ok st' → R st st'.
Proof.
  revert st. induction items as [|p items IH]; intros st; cbn [process_products].
  - intros <-%Ok_inj. apply R_refl.
  - destruct (process_product w g st p) as [st1| |] eqn:Hp; cbn [bind];
      [|done|done].
    intros H. eapply R_trans; [by eapply R_product | by apply IH].
Qed.

Lemma walk_relates n category lang page nop st st' :
  walk n w g category lang page nop st = Ok st' → R st st'.
Proof.
  revert page nop st. induction n as [|n IH]; intros page nop st H;
    apply walk_inv in H as [[_ ->] | (_ & n' & Hn & H)];
    try apply R_refl; try done.
  injection Hn as <-.
  destruct H as [[_ ->] | [(? & ? & _ & _ & ->) |
    (nop' & items & k & elements & st1 & _ & _ & _ & Hp & Hw)]];
    try apply R_page.
  eapply R_trans; [apply R_page|].
  eapply R_trans; [by eapply process_products_relates | by eapply IH].
Qed.

Lemma get_products_relates category lang st st' :
  get_products fuel w g category lang st = Ok st' → R st st'.
Proof.
  unfold get_products. destruct (in_list category (categories g)); cbn [negb].
  - apply walk_relates.
  - intros <-%Ok_inj. apply R_refl.
Qed.

Lemma crawl_categories_relates lang cats st st' :
  crawl_categories fuel w g lang cats st = Ok st' → R st st'.
Proof.
  revert st. induction cats as [|c cats IH]; intros st; cbn [crawl_categories].
  - intros <-%Ok_inj. apply R_refl.
  - destruct (get_products fuel w g c lang st) as [s1| |] eqn:Hg; cbn [bind];
      [|done|done].
    intros H. eapply R_trans; [by eapply get_products_relates | by apply IH].
Qed.

Lemma crawl_relates langs st st' :
  crawl fuel w g langs st = Ok st' → R st st'.
Proof.
  revert st. induction langs as [|l langs IH]; intros st; cbn [crawl].
  - intros <-%Ok_inj. apply R_refl.
  - destruct (crawl_categories fuel w g l (categories g) st) as [s1| |] eqn:Hg;
      cbn [bind]; [|done|done].
    intros H. eapply R_trans; [by eapply crawl_categories_relates | by apply IH].
Qed.

End CrawlRelates.

Section Grows.

Context (w : world) (g : gucci).

Lemma detail_requests_app store count st new :
  detail_requests {| products := store;
                     initial_count := count;
                     requests := requests st ++ new |}
  = detail_requests st ++ List.filter (fun u => negb (is_listing_url u)) new.
Proof. unfold detail_requests. cbn [requests]. apply List.filter_app. Qed.

Lemma grows_refl st : grows g st st.
Proof.
  exists []. rewrite !app_nil_r. split; [done|]. split; [done|].
  by destruct (product_details g); rewrite ?app_nil_r.
Qed.

Lemma grows_trans st1 st2 st3 :
  grows g st1 st2 → grows g st2 st3 → grows g st1 st3.
Proof.
  intros (a1 & Hp1 & Hc1 & Hd1) (a2 & Hp2 & Hc2 & Hd2).
  exists (a1 ++ a2). split; [by rewrite Hp2, Hp1, app_assoc|].
  split; [congruence|]. rewrite Hd2, Hd1.
  destruct (product_details g).
  - by rewrite map_app, app_assoc.
  - by rewrite !app_nil_r.
Qed.

Lemma grows_page st lang category page :
  grows g st (sent (products_url lang category page) st).
Proof.
  exists []. unfold sent. cbn [products initial_count].
  rewrite app_nil_r. split; [done|]. split; [done|].
  rewrite detail_requests_app. cbn [List.filter].
  rewrite is_listing_products_url. cbn [negb].
  by destruct (product_details g).
Qed.

Lemma grows_product st product st' :
  process_product w g st product = Ok st' → grows g st st'.
Proof.
  intros H.
  destruct (process_product_inv _ _ _ _ _ H) as (code & Hcode & Hcases).
  destruct Hcases as [[_ ->] | [Hmem _]]; [apply grows_refl|].
  destruct product as [| | | | |d]; try done.
  cbn [subscript] in Hcode.
  destruct (Dict.lookup "productCode" d) as [c|] eqn:Hc; [|done].
  apply Ok_inj in Hcode as ->.
  destruct (process_product_new w g st d code st' Hc Hmem H)
    as (images & details & _ & _ & _ & ->).
  eexists [(code, _)]. cbn [products initial_count].
  split; [reflexivity|]. split; [done|].
  rewrite detail_requests_app.
  destruct (product_details g); cbn [List.filter map fst]; [|done].
  by rewrite is_listing_details_url.
Qed.

Lemma get_products_grows fuel category lang st st' :
  get_products fuel w g category lang st = Ok st' → grows g st st'.
Proof.
  apply (get_products_relates fuel w g (grows g)).
  - apply grows_refl.
  - apply grows_trans.
  - apply grows_page.
  - apply grows_product.
Qed.

Lemma crawl_grows fuel langs st st' :
  crawl fuel w g langs st = Ok st' → grows g st st'.
Proof.
  apply (crawl_relates fuel w g (grows g)).
  - apply grows_refl.
  - apply grows_trans.
  - apply grows_page.
  - apply grows_product.
Qed.

End Grows.

(** X8. The store is append-only during a crawl.  When [get_products] or
    the whole crawl returns, the store is the one it started from followed
    by the new products, the delta grew by their number, and the detail
    requests sent are exactly those of the new products, in the order they
    were stored, when details are on, and none when details are off. *)
Theorem crawl_appends (fuel : nat) (w : world) (g : gucci) :
  (∀ category lang st st',
     get_products fuel w g category lang st = Ok st' → grows g st st')
  ∧ (∀ langs st st', crawl fuel w g langs st = Ok st' → grows g st st')
  ∧ (∀ st st' added,
       products st' = products st ++ added →
       initial_count st' = initial_count st →
       delta st' = delta st + Z.of_nat (length added)).
Proof.
  split; [|split].
  - intros category lang st st'. apply get_products_grows.
  - intros langs st st'. apply crawl_grows.
  - intros st st' added Hp Hc. unfold delta. rewrite Hp, Hc, length_app. lia.
Qed.

Lemma crawl_appends_witness :
  match crawl 5 catalog men_with_details ["us/en"] empty_state with
  | Ok st' => grows men_with_details empty_state st'
  | _ => False
  end.
Proof.
  destruct (crawl 5 catalog men_with_details ["us/en"] empty_state)
    as [st'| |] eqn:Hc.
  - exact (proj1 (proj2 (crawl_appends 5 catalog men_with_details))
             ["us/en"] empty_state st' Hc).
  - vm_compute in Hc. discriminate.
  - vm_compute in Hc. discriminate.
Defined.

(** X9. A crawl keeps the product codes of the store distinct, and, with
    details off, keeps every record stored under the code it carries in
    its own [productCode] field. *)
Theorem crawl_keeps_store_keyed (fuel : nat) (w : world) (g : gucci)
    (langs : list string) (st st' : state) :
  crawl fuel w g langs st = Ok st' →
  (dict_wf (products st) → dict_wf (products st'))
  ∧ (product_details g = false →
     keyed_by_code (products st) → keyed_by_code (products st')).
Proof.
  intros H. split.
  - revert H.
    apply (crawl_relates fuel w g
             (λ a b, dict_wf (products a) → dict_wf (products b))); try done.
    + by auto.
    + intros s product s' Hp Hwf.
      destruct (process_product_inv _ _ _ _ _ Hp)
        as (code & _ & [[_ ->] | (_ & record & new & -> & _)]); [done|].
      cbn [products]. by apply wf_set.
  - intros Hoff. revert H.
    apply (crawl_relates fuel w g
             (λ a b, keyed_by_code (products a) → keyed_by_code (products b)));
      try done.
    + by auto.
    + intros s product s' Hp Hkeyed.
      destruct (process_product_inv _ _ _ _ _ Hp)
        as (code & Hcode & [[_ ->] | [Hmem _]]); [done|].
      destruct product as [| | | | |d]; try done.
      cbn [subscript] in Hcode.
      destruct (Dict.lookup "productCode" d) as [c|] eqn:Hc; [|done].
      apply Ok_inj in Hcode as ->.
      destruct (process_product_new w g s d code s' Hc Hmem Hp)
        as (images & details & _ & Hdet & _ & ->).
      rewrite (Hdet Hoff). cbn [products].
      assert (Hcode' : Dict.lookup "productCode"
                (Dict.pop_all listing_drop_keys
                   (Dict.set "images" (JList (map JStr images)) d))
              = Some (JStr code)).
      { rewrite lookup_pop_all_other.
        - rewrite lookup_set. cbn [String.eqb Ascii.eqb Bool.eqb]. exact Hc.
        - intros Hk%in_list_elem_of. vm_compute in Hk. discriminate. }
      set (d' := Dict.pop_all listing_drop_keys _) in *. clearbody d'.
      intros c r [Hin | Hin%list_elem_of_singleton]%elem_of_app.
      * by apply Hkeyed.
      * injection Hin as -> ->. cbn [subscript Dict.update fold_left].
        by rewrite Hcode'.
Qed.

Lemma crawl_keeps_store_keyed_witness :
  match crawl 5 catalog (with_details false men_with_details) ["us/en"]
          empty_state with
  | Ok st' =>
      (dict_wf (products empty_state) → dict_wf (products st'))
      ∧ (product_details (with_details false men_with_details) = false →
         keyed_by_code (products empty_state) → keyed_by_code (products st'))
  | _ => False
  end.
Proof.
  destruct (crawl 5 catalog (with_details false men_with_details) ["us/en"]
              empty_state) as [st'| |] eqn:Hc.
  - exact (crawl_keeps_store_keyed 5 catalog _ ["us/en"] empty_state st' Hc).
  - vm_compute in Hc. discriminate.
  - vm_compute in Hc. discriminate.
Defined.

(* ===================================================================== *)
(** ** Pagination: order of the pages, termination *)
(* ===================================================================== *)

Section PageOrder.

Context (w : world) (g : gucci) (category lang : string).

Lemma map_seq_shift page k :
  map (λ j, products_url lang category (page + Z.of_nat j)) (seq 1 k)
  = map (λ j, products_url lang category (page + 1 + Z.of_nat j)) (seq 0 k).
Proof.
  rewrite <- (fmap_S_seq 0 k). change (S <$> seq 0 k) with (map S (seq 0 k)).
  rewrite map_map. apply map_ext. intros j. f_equal. lia.
Qed.

(** The loop asks for consecutive pages, each once, starting from the page
    it is at.  A property [P] of every page number the loop test can accept
    holds of every page asked for. *)
Lemma walk_consecutive (P : Z → Prop) fuel page nop st st' :
  (∀ q data nop' p,
     get w (products_url lang category q) = Some data →
     subscript data "numberOfPages" = Ok nop' →
     int_lt p nop' = Ok true → P p) →
  (int_lt page nop = Ok true → P page) →
  walk fuel w g category lang page nop st = Ok st' →
  ∃ k, (k ≤ fuel)%nat
       ∧ (∀ j, (j < k)%nat → P (page + Z.of_nat j))
       ∧ page_requests st'
         = page_requests st
           ++ map (λ j, products_url lang category (page + Z.of_nat j)) (seq 0 k).
Proof.
  intros Hbound. revert page nop st.
  induction fuel as [|fuel IH]; intros page nop st Hpage H;
    apply walk_inv in H as [[_ ->] | (Hlt & fuel' & Hf & H)];
    try (exists O; rewrite app_nil_r; split; [lia|]; split; [intros; lia | done]);
    try done.
  injection Hf as <-. specialize (Hpage Hlt).
  assert (Hone : page_requests (sent (products_url lang category page) st)
                 = page_requests st
                   ++ map (λ j, products_url lang category (page + Z.of_nat j))
                        (seq 0 1)).
  { rewrite page_requests_sent. cbn [seq map]. by rewrite Z.add_0_r. }
  assert (Hfirst : ∀ j, (j < 1)%nat → P (page + Z.of_nat j)).
  { intros j Hj. replace j with O by lia. by rewrite Z.add_0_r. }
  destruct H as [[_ ->] | [(? & ? & _ & _ & ->) |
    (nop' & items & n & elements & st1 & Hret & _ & _ & Hp & Hw)]].
  - exists 1%nat. split; [lia|]. by split.
  - exists 1%nat. split; [lia|]. by split.
  - destruct Hret as (data & listing & Hget & Hnop & _).
    destruct (IH (page + 1) nop' st1) as (k & Hk & HP & Hreq); [|done|].
    { intros Hlt'. by eapply Hbound. }
    exists (S k). split; [lia|]. split.
    + intros [|j] Hj; [by rewrite Z.add_0_r|].
      replace (page + Z.of_nat (S j)) with (page + 1 + Z.of_nat j) by lia.
      apply HP. lia.
    + rewrite Hreq, (process_products_page_requests _ _ _ _ _ Hp).
      rewrite page_requests_sent. cbn [seq map].
      rewrite Z.add_0_r, <- app_assoc. cbn [app]. by rewrite map_seq_shift.
Qed.

End PageOrder.

(** X10. Whatever the server answers, a call of [get_products] that returns
    has asked for pages 0, 1, ..., k-1 of its category, in this order and
    each once, for some k no larger than the number of loop turns. *)
Theorem get_products_pages_in_order (fuel : nat) (w : world) (g : gucci)
    (category lang : string) (st st' : state) :
  get_products fuel w g category lang st = Ok st' →
  ∃ k, (k ≤ fuel)%nat
       ∧ page_requests st'
         = page_requests st
           ++ map (λ j, products_url lang category (Z.of_nat j)) (seq 0 k).
Proof.
  unfold get_products. destruct (in_list category (categories g)); cbn [negb].
  - intros H.
    destruct (walk_consecutive w g category lang (λ _, True)
                fuel 0 (JNum 1) st st') as (k & Hk & _ & Hreq); try done.
    exists k. split; [done|]. rewrite Hreq. f_equal.
  - intros <-%Ok_inj. exists O. split; [lia|]. by rewrite app_nil_r.
Qed.

Lemma get_products_pages_in_order_witness :
  match get_products 5 catalog men_with_details "men" "us/en" empty_state with
  | Ok st' =>
      ∃ k, (k ≤ 5)%nat
           ∧ page_requests st'
             = page_requests empty_state
               ++ map (λ j, products_url "us/en" "men" (Z.of_nat j)) (seq 0 k)
  | _ => False
  end.
Proof.
  destruct (get_products 5 catalog men_with_details "men" "us/en" empty_state)
    as [st'| |] eqn:Hg.
  - exact (get_products_pages_in_order 5 catalog men_with_details "men" "us/en"
             empty_state st' Hg).
  - vm_compute in Hg. discriminate.
  - vm_compute in Hg. discriminate.
Defined.

Section NoTimeout.

Context (w : world) (g : gucci).

Lemma bind_no_timeout {A B} (r : result A) (k : A → result B) :
  r ≠ Timeout → (∀ a, k a ≠ Timeout) → bind r k ≠ Timeout.
Proof. destruct r; cbn [bind]; by auto. Qed.

Lemma subscript_no_timeout v k : subscript v k ≠ Timeout.
Proof. destruct v; cbn [subscript]; try done. by destruct (Dict.lookup k d). Qed.

Lemma mapM_no_timeout {A B} (f : A → result B) l :
  (∀ x, f x ≠ Timeout) → mapM f l ≠ Timeout.
Proof.
  intros Hf. induction l as [|x l IH]; [done|]. cbn [mapM].
  apply bind_no_timeout; [done|]. intros y.
  by apply bind_no_timeout.
Qed.

Lemma process_url_no_timeout url : process_url url ≠ Timeout.
Proof. unfold process_url. by destruct (_ !! _). Qed.

Lemma as_str_no_timeout v : as_str v ≠ Timeout.
Proof. by destruct v. Qed.

Lemma py_iter_no_timeout v : py_iter v ≠ Timeout.
Proof. by destruct v. Qed.

Lemma py_len_no_timeout v : py_len v ≠ Timeout.
Proof. by destruct v. Qed.

Lemma process_images_no_timeout product : process_images w product ≠ Timeout.
Proof.
  unfold process_images.
  repeat (apply bind_no_timeout;
          [first [apply subscript_no_timeout | apply py_iter_no_timeout
                 | apply mapM_no_timeout; intros;
                   first [apply subscript_no_timeout
                         | apply bind_no_timeout;
                           [apply as_str_no_timeout
                           | intros; apply process_url_no_timeout]]]
          | intros]).
  done.
Qed.

Lemma merge_translations_no_timeout target data ts :
  merge_translations target data ts ≠ Timeout.
Proof.
  revert data. induction ts as [|t ts IH]; intros data; [done|].
  cbn [merge_translations]. apply bind_no_timeout; [|done].
  destruct t; cbn [merge_translation]; try done.
  by destruct (eq_str _ _).
Qed.

Lemma get_product_details_no_timeout code st :
  get_product_details w g code st ≠ Timeout.
Proof.
  unfold get_product_details.
  destruct (get w (product_details_url code)) as [data|]; [|done].
  apply bind_no_timeout; [|done].
  destruct data; cbn [enrich]; try done.
  apply bind_no_timeout; [apply py_iter_no_timeout|]. intros ts.
  apply bind_no_timeout; [apply merge_translations_no_timeout | done].
Qed.

Lemma process_product_no_timeout st product :
  process_product w g st product ≠ Timeout.
Proof.
  unfold process_product.
  apply bind_no_timeout; [apply subscript_no_timeout|]. intros c.
  apply bind_no_timeout; [by destruct c|]. intros code.
  destruct (Dict.mem code (products st)); [done|].
  apply bind_no_timeout; [apply process_images_no_timeout|]. intros images.
  destruct product; try done.
  destruct (product_details g); [|done].
  apply bind_no_timeout; [apply get_product_details_no_timeout | done].
Qed.

Lemma process_products_no_timeout items st :
  process_products w g st items ≠ Timeout.
Proof.
  revert st. induction items as [|p items IH]; intros st; [done|].
  cbn [process_products].
  apply bind_no_timeout; [apply process_product_no_timeout | done].
Qed.

(** With the accepted page numbers below [bound], the loop needs no more
    turns than there are pages left below it. *)
Lemma walk_terminates category lang (bound : Z) fuel page nop st :
  (∀ q data nop' p,
     get w (products_url lang category q) = Some data →
     subscript data "numberOfPages" = Ok nop' →
     int_lt p nop' = Ok true → p < bound) →
  (int_lt page nop = Ok true → page < bound) →
  (Z.to_nat (bound - page) ≤ fuel)%nat →
  walk fuel w g category lang page nop st ≠ Timeout.
Proof.
  intros Hbound. revert page nop st.
  induction fuel as [|fuel IH]; intros page nop st Hpage Hfuel.
  - cbn [walk]. destruct (int_lt page nop) as [[|]| |] eqn:Hlt; cbn [bind negb];
      try discriminate; try (by destruct nop).
    specialize (Hpage eq_refl). lia.
  - cbn [walk]. destruct (int_lt page nop) as [[|]| |] eqn:Hlt; cbn [bind negb];
      try discriminate; try (by destruct nop).
    specialize (Hpage eq_refl).
    destruct (get w (products_url lang category page)) as [data|] eqn:Hget;
      [|done].
    destruct (subscript data "numberOfPages") as [nop'| |] eqn:Hn; cbn [bind];
      [|done|by apply subscript_no_timeout in Hn].
    apply bind_no_timeout; [apply subscript_no_timeout|]. intros listing.
    apply bind_no_timeout; [apply subscript_no_timeout|]. intros items.
    apply bind_no_timeout; [apply py_len_no_timeout|]. intros count.
    destruct (Nat.eqb count 0); [done|].
    apply bind_no_timeout; [apply py_iter_no_timeout|]. intros elements.
    apply bind_no_timeout; [apply process_products_no_timeout|]. intros st1.
    apply IH; [|lia]. intros Hlt'. by eapply Hbound.
Qed.

End NoTimeout.

(** X11. The page loop terminates when the page counts the server announces
    are bounded: if no response lets the loop test accept a page number
    from N on, [get_products] ends within max(1, N) loop turns, and a call
    that returns has asked for at most that many pages. *)
Theorem get_products_terminates (w : world) (g : gucci) (category lang : string)
    (N : Z) :
  (∀ q data nop' p,
     get w (products_url lang category q) = Some data →
     subscript data "numberOfPages" = Ok nop' →
     int_lt p nop' = Ok true → p < N) →
  (∀ fuel st,
     (Z.to_nat (Z.max 1 N) ≤ fuel)%nat →
     get_products fuel w g category lang st ≠ Timeout)
  ∧ (∀ fuel st st',
       get_products fuel w g category lang st = Ok st' →
       ∃ k, Z.of_nat k ≤ Z.max 1 N
            ∧ page_requests st'
              = page_requests st
                ++ map (λ j, products_url lang category (Z.of_nat j)) (seq 0 k)).
Proof.
  intros Hbound.
  assert (Hbound' : ∀ q data nop' p,
     get w (products_url lang category q) = Some data →
     subscript data "numberOfPages" = Ok nop' →
     int_lt p nop' = Ok true → p < Z.max 1 N).
  { intros q data nop' p Hget Hn Hlt.
    pose proof (Hbound q data nop' p Hget Hn Hlt). lia. }
  split.
  - intros fuel st Hfuel. unfold get_products.
    destruct (in_list category (categories g)); cbn [negb]; [|done].
    apply (walk_terminates w g category lang (Z.max 1 N)); [done| |].
    + intros _. lia.
    + rewrite Z.sub_0_r. exact Hfuel.
  - intros fuel st st'. unfold get_products.
    destruct (in_list category (categories g)); cbn [negb].
    + intros H.
      destruct (walk_consecutive w g category lang (λ p, p < Z.max 1 N)
                  fuel 0 (JNum 1) st st') as (k & _ & HP & Hreq); try done.
      { intros _. lia. }
      exists k. split; [|by rewrite Hreq].
      destruct k as [|k]; [lia|]. specialize (HP k ltac:(lia)). lia.
    + intros <-%Ok_inj. exists O. split; [lia|]. by rewrite app_nil_r.
Qed.

Lemma lookup_elem_of k v (d : dict) :
  Dict.lookup k d = Some v → (k, v) ∈ d.
Proof.
  induction d as [|[k1 v1] d IH]; [done|]. cbn [Dict.lookup].
  destruct (String.eqb_spec k1 k) as [->|].
  - intros [= ->]. by left.
  - intros H. right. by apply IH.
Qed.

Lemma serving_get table url data :
  get (serving table) url = Some data → (url, data) ∈ table.
Proof.
  unfold get, serving. cbn [requests_get].
  destruct (Dict.lookup url table) as [v|] eqn:Hv; cbn; [|done].
  intros H. apply lookup_elem_of.
  destruct v; try done; by injection H as <-.
Qed.

Lemma get_products_terminates_witness :
  get_products 3 catalog men_with_details "men" "us/en" empty_state ≠ Timeout.
Proof.
  apply (proj1 (get_products_terminates catalog men_with_details "men" "us/en" 3
                  ltac:(intros q data nop' p Hget%serving_get Hn Hlt;
                        repeat (apply elem_of_cons in Hget as [Heq|Hget];
                                [apply (f_equal snd) in Heq; cbn [snd] in Heq;
                                 subst data; vm_compute in Hn;
                                 first [discriminate
                                       | injection Hn as <-; cbn [int_lt] in Hlt;
                                         injection Hlt as Hlt;
                                         apply Z.ltb_lt in Hlt; exact Hlt]|]);
                        by apply elem_of_nil in Hget))).
  vm_compute. lia.
Defined.

(* ===================================================================== *)
(** ** Persistence: save, then load *)
(* ===================================================================== *)



(* ===================================================================== *)
(** ** Image downloader: what is written, what is kept *)
(* ===================================================================== *)

Section Files.

Implicit Types (fs : filesystem) (dir filename url : string).

Lemma keeps_files_refl fs : keeps_files fs fs.
Proof. split; [done|]. intros dir files H. by exists files. Qed.

Lemma keeps_files_trans fs1 fs2 fs3 :
  keeps_files fs1 fs2 → keeps_files fs2 fs3 → keeps_files fs1 fs3.
Proof.
  intros [Hc1 Hd1] [Hc2 Hd2]. split; [congruence|].
  intros dir files H. destruct (Hd1 _ _ H) as (f2 & H2 & Hs2).
  destruct (Hd2 _ _ H2) as (f3 & H3 & Hs3).
  exists f3. split; [done|]. by etrans.
Qed.

Lemma keeps_files_mkdir dir fs : keeps_files fs (mkdir dir fs).
Proof.
  unfold mkdir. destruct (image_dirs fs !! dir) eqn:Hd; [apply keeps_files_refl|].
  split; [done|]. cbn [image_dirs]. intros d files H. exists files.
  split; [|done]. rewrite lookup_insert_ne; [done|]. congruence.
Qed.

(** A path that is absent names no file of its directory. *)
Lemma path_absent fs dir filename files :
  path_exists fs dir filename = false →
  image_dirs fs !! dir = Some files →
  files !! filename = None.
Proof.
  unfold path_exists. intros H Hd. rewrite Hd in H.
  apply orb_false_iff in H as [_ H]. apply bool_decide_eq_false in H.
  by apply eq_None_not_Some.
Qed.

Lemma keeps_files_write fs dir filename content :
  path_exists fs dir filename = false →
  keeps_files fs (write_file dir filename content fs).
Proof.
  intros Habs. split; [done|]. unfold write_file. cbn [image_dirs].
  intros d files H. destruct (decide (d = dir)) as [->|Hne].
  - rewrite lookup_alter_eq, H. cbn. eexists. split; [done|].
    apply insert_subseteq. by eapply path_absent.
  - rewrite lookup_alter_ne by done. by exists files.
Qed.

(** [download] sends its URL or nothing, and keeps every file. *)
Lemma download_keeps w url dir filename fs fs' reqs :
  download w url dir filename fs = Ok (fs', reqs) →
  keeps_files fs fs' ∧ (reqs = [] ∨ reqs = [url]).
Proof.
  unfold download. destruct (path_exists fs dir filename) eqn:Hex.
  { intros [= <- <-]. split; [apply keeps_files_refl | by left]. }
  destruct (ok (requests_get w url)); cbn [negb].
  - destruct (image_dirs fs !! dir); [|done].
    intros [= <- <-]. split; [by apply keeps_files_write | by right].
  - intros [= <- <-]. split; [apply keeps_files_refl | by right].
Qed.

Lemma path_exists_keeps fs fs' dir filename :
  keeps_files fs fs' →
  path_exists fs dir filename = true → path_exists fs' dir filename = true.
Proof.
  intros [_ Hd]. unfold path_exists.
  destruct (image_dirs fs !! dir) as [files|] eqn:H; [|done].
  destruct (Hd _ _ H) as (files' & -> & Hsub).
  intros [Hn | Hf%bool_decide_eq_true]%orb_true_iff; apply orb_true_iff;
    [by left|]. right. apply bool_decide_eq_true.
  destruct Hf as [c Hc]. exists c. by eapply lookup_weaken.
Qed.

Lemma download_each_keeps w dir elements fs fs' reqs :
  download_each w dir elements fs = Ok (fs', reqs) →
  keeps_files fs fs' ∧ ∀ u, u ∈ reqs → JStr u ∈ elements.
Proof.
  revert fs fs' reqs. induction elements as [|e elements IH]; intros fs fs' reqs.
  - intros [= <- <-]. split; [apply keeps_files_refl|]. by intros u ?%elem_of_nil.
  - cbn [download_each].
    destruct e as [| | |url| |]; cbn [as_str bind]; try done.
    destruct (download w url dir _ fs) as [[fs1 r1]| |] eqn:Hd; cbn [bind fst snd];
      [|done|done].
    destruct (download_each w dir elements fs1) as [[fs2 r2]| |] eqn:He;
      cbn [bind fst snd]; [|done|done].
    intros [= <- <-].
    destruct (download_keeps _ _ _ _ _ _ _ Hd) as [Hk1 Hr1].
    destruct (IH _ _ _ He) as [Hk2 Hr2].
    split; [by eapply keeps_files_trans|].
    intros u [Hu|Hu]%elem_of_app.
    + destruct Hr1 as [-> | ->]; [by apply elem_of_nil in Hu|].
      apply list_elem_of_singleton in Hu as ->. by left.
    + right. by apply Hr2.
Qed.

Lemma download_product_keeps w product fs fs' reqs :
  download_product w product fs = Ok (fs', reqs) →
  keeps_files fs fs' ∧ ∀ u, u ∈ reqs → u ∈ listed_images product.
Proof.
  unfold download_product, listed_images.
  destruct (subscript product "productCode") as [c| |]; cbn [bind]; [|done|done].
  destruct c as [| | |code| |]; cbn [as_path bind]; try done.
  destruct (subscript product "images") as [images| |]; cbn [bind]; [|done|done].
  destruct (py_len images) as [n| |]; cbn [bind]; [|done|done].
  destruct (_ && _).
  { intros [= <- <-]. split; [apply keeps_files_mkdir|]. by intros u ?%elem_of_nil. }
  destruct (py_iter images) as [elements| |]; cbn [bind]; [|done|done].
  intros [Hk Hr]%download_each_keeps. split.
  - eapply keeps_files_trans; [apply keeps_files_mkdir | done].
  - intros u Hu. apply list_elem_of_omap. exists (JStr u). split; [by apply Hr | done].
Qed.

Lemma download_images_keeps w (store : dict) fs fs' reqs :
  download_images w store fs = Ok (fs', reqs) →
  keeps_files fs fs'
  ∧ ∀ u, u ∈ reqs →
         ∃ key product, (key, product) ∈ store ∧ u ∈ listed_images product.
Proof.
  revert fs fs' reqs. induction store as [|[key product] store IH];
    intros fs fs' reqs.
  - intros [= <- <-]. split; [apply keeps_files_refl|]. by intros u ?%elem_of_nil.
  - cbn [download_images].
    destruct (download_product w product fs) as [[fs1 r1]| |] eqn:Hp;
      cbn [bind fst snd]; [|done|done].
    destruct (download_images w store fs1) as [[fs2 r2]| |] eqn:Hs;
      cbn [bind fst snd]; [|done|done].
    intros [= <- <-].
    destruct (download_product_keeps _ _ _ _ _ Hp) as [Hk1 Hr1].
    destruct (IH _ _ _ Hs) as [Hk2 Hr2].
    split; [by eapply keeps_files_trans|].
    intros u [Hu|Hu]%elem_of_app.
    + exists key, product. split; [by left | by apply Hr1].
    + destruct (Hr2 u Hu) as (k & p & Hin & Hl). exists k, p.
      split; [by right | done].
Qed.

End Files.

Section Passes.

Implicit Types (fs gs : filesystem) (dir code url : string).

Lemma dir_exists_keeps fs fs' dir :
  keeps_files fs fs' → dir_exists fs dir = true → dir_exists fs' dir = true.
Proof.
  intros [_ Hd] [files H]%bool_decide_eq_true.
  destruct (Hd _ _ H) as (files' & H' & _).
  apply bool_decide_eq_true. eauto.
Qed.

Lemma mkdir_existing fs dir : dir_exists fs dir = true → mkdir dir fs = fs.
Proof.
  intros [files H]%bool_decide_eq_true. unfold mkdir. by rewrite H.
Qed.

(** *** Each step touches the directory of its own product only *)

Lemma mkdir_frame fs dir d :
  d ≠ dir → image_dirs (mkdir dir fs) !! d = image_dirs fs !! d.
Proof.
  intros Hne. unfold mkdir. destruct (image_dirs fs !! dir); [done|].
  cbn [image_dirs]. by rewrite lookup_insert_ne.
Qed.

Lemma download_frame w url dir filename fs fs' reqs d :
  download w url dir filename fs = Ok (fs', reqs) →
  d ≠ dir → image_dirs fs' !! d = image_dirs fs !! d.
Proof.
  unfold download. intros H Hne.
  destruct (path_exists fs dir filename); [by injection H as <- _|].
  destruct (negb _); [by injection H as <- _|].
  destruct (image_dirs fs !! dir); [|done].
  injection H as <- _. unfold write_file. cbn [image_dirs].
  by rewrite lookup_alter_ne.
Qed.

Lemma download_each_frame w dir elements fs fs' reqs d :
  download_each w dir elements fs = Ok (fs', reqs) →
  d ≠ dir → image_dirs fs' !! d = image_dirs fs !! d.
Proof.
  intros H Hne. revert fs fs' reqs H.
  induction elements as [|e elements IH]; intros fs fs' reqs.
  - by intros [= <- _].
  - cbn [download_each].
    destruct e as [| | |url| |]; cbn [as_str bind]; try done.
    destruct (download w url dir _ fs) as [[fs1 r1]| |] eqn:Hd; cbn [bind fst snd];
      [|done|done].
    destruct (download_each w dir elements fs1) as [[fs2 r2]| |] eqn:He;
      cbn [bind fst snd]; [|done|done].
    intros [= <- _]. rewrite (IH _ _ _ He).
    by eapply download_frame.
Qed.

Lemma download_product_frame w product code fs fs' reqs d :
  subscript product "productCode" = Ok (JStr code) →
  download_product w product fs = Ok (fs', reqs) →
  d ≠ code → image_dirs fs' !! d = image_dirs fs !! d.
Proof.
  intros Hc H Hne. revert H. unfold download_product. rewrite Hc.
  cbn [bind as_path].
  destruct (subscript product "images") as [images| |]; cbn [bind]; [|done|done].
  destruct (py_len images) as [n| |]; cbn [bind]; [|done|done].
  destruct (_ && _).
  { intros [= <- _]. by apply mkdir_frame. }
  destruct (py_iter images) as [elements| |]; cbn [bind]; [|done|done].
  intros H. rewrite (download_each_frame _ _ _ _ _ _ d H Hne).
  by apply mkdir_frame.
Qed.

Lemma download_images_frame w (store : dict) fs fs' reqs d :
  keyed_by_code store →
  d ∉ map fst store →
  download_images w store fs = Ok (fs', reqs) →
  image_dirs fs' !! d = image_dirs fs !! d.
Proof.
  revert fs fs' reqs. induction store as [|[key product] store IH];
    intros fs fs' reqs Hkeyed Hd.
  - by intros [= <- _].
  - cbn [download_images].
    destruct (download_product w product fs) as [[fs1 r1]| |] eqn:Hp;
      cbn [bind fst snd]; [|done|done].
    destruct (download_images w store fs1) as [[fs2 r2]| |] eqn:Hs;
      cbn [bind fst snd]; [|done|done].
    intros [= <- _]. cbn [map fst] in Hd.
    apply not_elem_of_cons in Hd as [Hne Hd].
    rewrite (IH fs1 fs2 r2); [|by intros c r Hin; apply Hkeyed; right|done|done].
    eapply download_product_frame; [|exact Hp|done].
    apply Hkeyed. by left.
Qed.

(** *** What a pass leaves behind *)

(** Whether a product is settled depends on its own directory only. *)
Lemma settled_same_dir failed code product fs gs :
  image_dirs gs !! code = image_dirs fs !! code →
  settled failed code product fs → settled failed code product gs.
Proof.
  intros Heq (Hc & Hdir & images & n & Hi & Hn & Hcase).
  split; [done|]. split.
  { unfold dir_exists in *. by rewrite Heq. }
  exists images, n. split; [done|]. split; [done|].
  destruct Hcase as [Hcount | (elements & Hit & Hall)].
  - left. unfold glob_jpg in *. by rewrite Heq.
  - right. exists elements. split; [done|].
    eapply Forall_impl; [exact Hall|].
    intros e (url & -> & Hcase). exists url. split; [done|].
    destruct Hcase as [Hex|Hf]; [left | by right].
    unfold path_exists in *. by rewrite Heq.
Qed.

Lemma image_settled_keeps failed fs fs' dir e :
  keeps_files fs fs' →
  image_settled failed fs dir e → image_settled failed fs' dir e.
Proof.
  intros Hk (url & -> & Hcase). exists url. split; [done|].
  destruct Hcase as [Hex|Hf]; [left | by right].
  by eapply path_exists_keeps.
Qed.

Lemma download_each_settles w dir elements fs fs' reqs :
  dir_exists fs dir = true →
  download_each w dir elements fs = Ok (fs', reqs) →
  Forall (image_settled
            (λ u, u ∈ reqs ∧ ok (requests_get w u) = false) fs' dir) elements.
Proof.
  revert fs fs' reqs. induction elements as [|e elements IH];
    intros fs fs' reqs Hdir; [by constructor|].
  cbn [download_each].
  destruct e as [| | |url| |]; cbn [as_str bind]; try done.
  fold (image_filename url).
  destruct (download w url dir _ fs) as [[fs1 r1]| |] eqn:Hd; cbn [bind fst snd];
    [|done|done].
  destruct (download_each w dir elements fs1) as [[fs2 r2]| |] eqn:He;
    cbn [bind fst snd]; [|done|done].
  intros [= <- <-].
  destruct (download_keeps _ _ _ _ _ _ _ Hd) as [Hk1 _].
  destruct (download_each_keeps _ _ _ _ _ _ He) as [Hk2 _].
  constructor.
  - exists url. split; [done|]. revert Hd. unfold download.
    destruct (path_exists fs dir (image_filename url)) eqn:Hex.
    { intros _. left. eapply path_exists_keeps; [|exact Hex].
      by eapply keeps_files_trans. }
    destruct (ok (requests_get w url)) eqn:Hok; cbn [negb].
    + destruct (image_dirs fs !! dir) eqn:Hdd; [|done].
      intros [= <- _]. left. eapply path_exists_keeps; [exact Hk2|].
      apply path_exists_write_file. eauto.
    + intros [= _ <-]. right. split; [|done]. apply elem_of_app. left. by left.
  - eapply Forall_impl; [apply (IH fs1 fs2 r2); [|done]|].
    + by eapply dir_exists_keeps.
    + intros e (u & -> & Hcase). exists u. split; [done|].
      destruct Hcase as [Hex | [Hin Hf]]; [by left | right].
      split; [|done]. apply elem_of_app. by right.
Qed.

Lemma download_product_settles w product code fs fs' reqs :
  subscript product "productCode" = Ok (JStr code) →
  download_product w product fs = Ok (fs', reqs) →
  settled (λ u, u ∈ reqs ∧ ok (requests_get w u) = false) code product fs'.
Proof.
  intros Hc. unfold download_product, settled. rewrite Hc. cbn [bind as_path].
  destruct (subscript product "images") as [images| |]; cbn [bind]; [|done|done].
  destruct (py_len images) as [n| |] eqn:Hn; cbn [bind]; [|done|done].
  destruct (_ && _) eqn:Hcond.
  { intros [= <- <-]. split; [done|].
    apply andb_true_iff in Hcond as [Hdir Hcount%Nat.eqb_eq].
    split; [done|]. exists images, n. split; [done|]. split; [done|]. by left. }
  destruct (py_iter images) as [elements| |] eqn:Hit; cbn [bind]; [|done|done].
  intros H. split; [done|].
  destruct (download_each_keeps _ _ _ _ _ _ H) as [Hk _].
  split; [eapply dir_exists_keeps; [exact Hk | apply dir_exists_mkdir]|].
  exists images, n. split; [done|]. split; [done|]. right. exists elements.
  split; [done|].
  eapply download_each_settles; [|exact H]. apply dir_exists_mkdir.
Qed.

Lemma settled_weaken (failed failed' : string → Prop) code product fs :
  (∀ u, failed u → failed' u) →
  settled failed code product fs → settled failed' code product fs.
Proof.
  intros Himp (Hc & Hdir & images & n & Hi & Hn & Hcase).
  split; [done|]. split; [done|]. exists images, n.
  split; [done|]. split; [done|].
  destruct Hcase as [?|(elements & Hit & Hall)]; [by left | right].
  exists elements. split; [done|]. eapply Forall_impl; [exact Hall|].
  intros e (url & -> & [?|?]); exists url; split; auto.
Qed.

Lemma first_pass_settles w (store : dict) fs fs' reqs :
  dict_wf store → keyed_by_code store →
  download_images w store fs = Ok (fs', reqs) →
  ∀ code product,
    (code, product) ∈ store →
    settled (λ u, u ∈ reqs ∧ ok (requests_get w u) = false) code product fs'.
Proof.
  revert fs fs' reqs. induction store as [|[key product] store IH];
    intros fs fs' reqs Hwf Hkeyed.
  { intros _ code p Hin. by apply elem_of_nil in Hin. }
  cbn [download_images].
  destruct (download_product w product fs) as [[fs1 r1]| |] eqn:Hp;
    cbn [bind fst snd]; [|done|done].
  destruct (download_images w store fs1) as [[fs2 r2]| |] eqn:Hs;
    cbn [bind fst snd]; [|done|done].
  intros [= <- <-] code p Hin.
  unfold dict_wf in Hwf. cbn [map fst] in Hwf.
  apply NoDup_cons in Hwf as [Hfresh Hwf].
  assert (Hkeyed' : keyed_by_code store)
    by (intros c r Hcr; apply Hkeyed; by right).
  apply elem_of_cons in Hin as [[= -> ->] | Hin].
  - eapply settled_same_dir.
    { by eapply download_images_frame. }
    eapply settled_weaken; [|eapply download_product_settles; [|exact Hp]].
    + intros u [Hu Hf]. split; [|done]. apply elem_of_app. by left.
    + apply Hkeyed. by left.
  - eapply settled_weaken; [|by eapply (IH fs1 fs2 r2)].
    intros u [Hu Hf]. split; [|done]. apply elem_of_app. by right.
Qed.

(** *** What the next pass does *)

Lemma download_each_quiet w dir elements fs fs' :
  download_each w dir elements fs = Ok (fs', []) → fs' = fs.
Proof.
  revert fs fs'. induction elements as [|e elements IH]; intros fs fs'.
  - by intros [= <-].
  - cbn [download_each].
    destruct e as [| | |url| |]; cbn [as_str bind]; try done.
    destruct (download w url dir _ fs) as [[fs1 r1]| |] eqn:Hd; cbn [bind fst snd];
      [|done|done].
    destruct (download_each w dir elements fs1) as [[fs2 r2]| |] eqn:He;
      cbn [bind fst snd]; [|done|done].
    intros [= <- [-> ->]%app_eq_nil].
    rewrite (IH _ _ He). revert Hd. unfold download.
    destruct (path_exists fs dir _); [by intros [= <-]|].
    destruct (negb _); [done|]. by destruct (image_dirs fs !! dir).
Qed.

Lemma download_each_settled w (failed : string → Prop) dir elements fs :
  dir_exists fs dir = true →
  Forall (image_settled failed fs dir) elements →
  ∃ fs' reqs,
    download_each w dir elements fs = Ok (fs', reqs)
    ∧ ∀ u, u ∈ reqs → failed u.
Proof.
  revert fs. induction elements as [|e elements IH]; intros fs Hdir Hall.
  { exists fs, []. split; [done|]. by intros u ?%elem_of_nil. }
  apply Forall_cons in Hall as [(url & -> & Hcase) Hall].
  cbn [download_each as_str bind]. fold (image_filename url).
  assert (Hd : ∃ fs1 r1,
             download w url dir (image_filename url) fs = Ok (fs1, r1)
             ∧ ∀ u, u ∈ r1 → failed u).
  { unfold download.
    destruct (path_exists fs dir (image_filename url)) eqn:Hex.
    { exists fs, []. split; [done|]. by intros u ?%elem_of_nil. }
    destruct Hcase as [?|Hf]; [done|].
    apply bool_decide_eq_true in Hdir as [files Hfiles]. rewrite Hfiles.
    destruct (negb _); eexists _, [url]; (split; [done|]);
      by intros u ->%list_elem_of_singleton. }
  destruct Hd as (fs1 & r1 & Hd & Hr1). rewrite Hd. cbn [bind fst snd].
  destruct (download_keeps _ _ _ _ _ _ _ Hd) as [Hk _].
  destruct (IH fs1) as (fs2 & r2 & He & Hr2).
  { by eapply dir_exists_keeps. }
  { eapply Forall_impl; [exact Hall|]. intros e. by apply image_settled_keeps. }
  rewrite He. cbn [bind fst snd]. eexists _, _. split; [done|].
  intros u [?|?]%elem_of_app; auto.
Qed.

Lemma download_product_settled w (failed : string → Prop) code product fs :
  settled failed code product fs →
  ∃ fs' reqs,
    download_product w product fs = Ok (fs', reqs)
    ∧ (∀ u, u ∈ reqs → failed u)
    ∧ (reqs = [] → fs' = fs).
Proof.
  intros (Hc & Hdir & images & n & Hi & Hn & Hcase).
  unfold download_product. rewrite Hc. cbn [bind as_path].
  rewrite Hi. cbn [bind]. rewrite Hn. cbn [bind].
  rewrite (mkdir_existing _ _ Hdir), Hdir. cbn [andb].
  destruct (Nat.eqb _ n) eqn:Hcount.
  { exists fs, []. split; [done|]. split; [|done]. by intros u ?%elem_of_nil. }
  destruct Hcase as [Heq | (elements & Hit & Hall)].
  { apply Nat.eqb_neq in Hcount. done. }
  rewrite Hit. cbn [bind].
  destruct (download_each_settled w failed code elements fs Hdir Hall)
    as (fs' & reqs & He & Hr).
  exists fs', reqs. split; [done|]. split; [done|].
  intros ->. by eapply download_each_quiet.
Qed.

Lemma next_pass w (failed : string → Prop) (store : dict) fs :
  dict_wf store → keyed_by_code store →
  (∀ code product, (code, product) ∈ store → settled failed code product fs) →
  ∃ fs' reqs,
    download_images w store fs = Ok (fs', reqs)
    ∧ (∀ u, u ∈ reqs → failed u)
    ∧ (reqs = [] → fs' = fs).
Proof.
  revert fs. induction store as [|[key product] store IH];
    intros fs Hwf Hkeyed Hall.
  { exists fs, []. split; [done|]. split; [|done]. by intros u ?%elem_of_nil. }
  unfold dict_wf in Hwf. cbn [map fst] in Hwf.
  apply NoDup_cons in Hwf as [Hfresh Hwf].
  assert (Hkeyed' : keyed_by_code store)
    by (intros c r Hcr; apply Hkeyed; by right).
  destruct (download_product_settled w failed key product fs)
    as (fs1 & r1 & Hp & Hr1 & Hq1).
  { apply Hall. by left. }
  destruct (IH fs1 Hwf Hkeyed') as (fs2 & r2 & Hs & Hr2 & Hq2).
  { intros code p Hin. eapply settled_same_dir; [|apply Hall; by right].
    eapply download_product_frame; [|exact Hp|].
    - apply Hkeyed. by left.
    - intros ->. apply Hfresh. apply list_elem_of_fmap. by exists (key, p). }
  cbn [download_images]. rewrite Hp. cbn [bind fst snd]. rewrite Hs.
  cbn [bind fst snd]. eexists _, _. split; [done|]. split.
  - intros u [?|?]%elem_of_app; auto.
  - intros [-> ->]%app_eq_nil. rewrite Hq2, Hq1; done.
Qed.

(** *** Records the downloader can read *)



End Passes.

(** X13. A download whose file is absent and whose response is ok writes
    the chunks of the response, in order, under the file's name, into a
    name that was free; every other file, directory and catalog file is as
    before.  Into a directory that does not exist it raises [OSError]. *)
Theorem download_writes_chunks (w : world) (url dir filename : string)
    (fs : filesystem) :
  ok (requests_get w url) = true →
  (image_dirs fs !! dir = None →
   download w url dir filename fs = Raise OSError)
  ∧ (∀ files,
       image_dirs fs !! dir = Some files →
       path_exists fs dir filename = false →
       ∃ fs',
         download w url dir filename fs = Ok (fs', [url])
         ∧ files !! filename = None
         ∧ image_dirs fs' !! dir
           = Some (<[filename := String.concat "" (iter_content (requests_get w url))]>
                     files)
         ∧ (∀ d, d ≠ dir → image_dirs fs' !! d = image_dirs fs !! d)
         ∧ catalogs fs' = catalogs fs).
Proof.
  intros Hok. split.
  - intros Hnone. unfold download, path_exists. by rewrite Hnone, Hok.
  - intros files Hdir Habs. unfold download. rewrite Habs, Hok, Hdir.
    cbn [negb]. eexists. split; [done|].
    split; [by eapply path_absent|].
    unfold write_file. cbn [image_dirs catalogs].
    split; [by rewrite lookup_alter_eq, Hdir|].
    split; [|done]. intros d Hne. by rewrite lookup_alter_ne.
Qed.

Lemma download_writes_chunks_witness :
  ∃ fs',
    download image_server "https://h/m/s/l/a.jpg" "P1" "a.jpg" disk_with_notes
    = Ok (fs', ["https://h/m/s/l/a.jpg"])
    ∧ ({[ "notes.txt" := "to do" ]} : gmap string string) !! "a.jpg" = None
    ∧ image_dirs fs' !! "P1"
      = Some (<["a.jpg" := "JFIF"]> {[ "notes.txt" := "to do" ]})
    ∧ (∀ d, d ≠ "P1" → image_dirs fs' !! d = image_dirs disk_with_notes !! d)
    ∧ catalogs fs' = catalogs disk_with_notes.
Proof.
  apply (proj2 (download_writes_chunks image_server "https://h/m/s/l/a.jpg"
                  "P1" "a.jpg" disk_with_notes eq_refl)).
  - reflexivity.
  - reflexivity.
Defined.

(** X14. The image downloader only adds: after a pass every catalog file
    is as before and every file that was in an image directory is still
    there with its content.  Every request of the pass is for an image
    that a stored record lists. *)
Theorem download_images_only_adds (w : world) (store : dict)
    (fs fs' : filesystem) (reqs : list string) :
  download_images w store fs = Ok (fs', reqs) →
  catalogs fs' = catalogs fs
  ∧ (∀ dir files filename content,
       image_dirs fs !! dir = Some files →
       files !! filename = Some content →
       ∃ files', image_dirs fs' !! dir = Some files'
                 ∧ files' !! filename = Some content)
  ∧ (∀ u, u ∈ reqs →
          ∃ key product, (key, product) ∈ store ∧ u ∈ listed_images product).
Proof.
  intros [[Hc Hd] Hr]%download_images_keeps. split; [done|]. split; [|done].
  intros dir files filename content Hdir Hfile.
  destruct (Hd _ _ Hdir) as (files' & Hdir' & Hsub).
  exists files'. split; [done|]. by eapply lookup_weaken.
Qed.

Lemma download_images_only_adds_witness :
  match download_images image_server stored_P1 disk_with_notes with
  | Ok (fs', reqs) =>
      catalogs fs' = catalogs disk_with_notes
      ∧ (∀ dir files filename content,
           image_dirs disk_with_notes !! dir = Some files →
           files !! filename = Some content →
           ∃ files', image_dirs fs' !! dir = Some files'
                     ∧ files' !! filename = Some content)
      ∧ (∀ u, u ∈ reqs →
              ∃ key product,
                (key, product) ∈ stored_P1 ∧ u ∈ listed_images product)
  | _ => False
  end.
Proof.
  destruct (download_images image_server stored_P1 disk_with_notes)
    as [[fs' reqs]| |] eqn:H.
  - exact (download_images_only_adds _ _ _ _ _ H).
  - vm_compute in H. discriminate.
  - vm_compute in H. discriminate.
Defined.

(** X15. The downloader can be run again: over a store whose records are
    keyed by their distinct product codes, a pass that follows a finished
    pass finishes too, and asks only for images whose request failed in the
    first pass.  When no request of the first pass failed, the next pass
    sends nothing and changes nothing. *)
Theorem download_images_second_pass (w w' : world) (store : dict)
    (fs fs1 : filesystem) (reqs : list string) :
  dict_wf store →
  keyed_by_code store →
  download_images w store fs = Ok (fs1, reqs) →
  ∃ fs2 reqs',
    download_images w' store fs1 = Ok (fs2, reqs')
    ∧ (∀ u, u ∈ reqs' → u ∈ reqs ∧ ok (requests_get w u) = false)
    ∧ ((∀ u, u ∈ reqs → ok (requests_get w u) = true) →
       reqs' = [] ∧ fs2 = fs1).
Proof.
  intros Hwf Hkeyed Hfirst.
  destruct (next_pass w' (λ u, u ∈ reqs ∧ ok (requests_get w u) = false)
              store fs1 Hwf Hkeyed)
    as (fs2 & reqs' & Hsecond & Hr & Hq).
  { by eapply first_pass_settles. }
  exists fs2, reqs'. split; [done|]. split; [done|].
  intros Hall.
  assert (reqs' = []) as ->.
  { destruct reqs' as [|u rest]; [done|].
    destruct (Hr u) as [Hu Hf]; [by left|].
    rewrite (Hall u Hu) in Hf. discriminate. }
  split; [done|]. by apply Hq.
Qed.

Lemma download_images_second_pass_witness :
  ∃ fs2 reqs',
    download_images image_server stored_P1 disk_with_notes = Ok (fs2, reqs')
    ∧ (∀ u, u ∈ reqs' →
            u ∈ ["https://h/m/DarkGray_Center_0_0_2400x2400/l/a.jpg"]
            ∧ ok (requests_get quiet_world u) = false)
    ∧ ((∀ u, u ∈ ["https://h/m/DarkGray_Center_0_0_2400x2400/l/a.jpg"] →
             ok (requests_get quiet_world u) = true) →
       reqs' = [] ∧ fs2 = disk_with_notes).
Proof.
  apply (download_images_second_pass quiet_world image_server stored_P1
           disk_with_notes disk_with_notes).
  - unfold dict_wf, stored_P1. cbn [map fst]. apply NoDup_singleton.
  - intros code record Hin. unfold stored_P1 in Hin.
    apply list_elem_of_singleton in Hin. injection Hin as -> ->. reflexivity.
  - vm_compute. reflexivity.
Defined.

Section Downloadable.

Context (fuel : nat) (w : world) (g : gucci).
Hypothesis details_off : product_details g = false.



End Downloadable.





Section DetailsRefused.

Context (w : world) (g : gucci).
Hypothesis refused : ∀ code, get w (product_details_url code) = None.

Lemma same_outcome_bind (r1 r2 : result state) (k1 k2 : state → result state) :
  same_outcome r1 r2 →
  (∀ a b, products a = products b → initial_count a = initial_count b →
          same_outcome (k1 a) (k2 b)) →
  same_outcome (bind r1 k1) (bind r2 k2).
Proof.
  intros H Hk. destruct r1 as [a| |], r2 as [b| |]; cbn in *; try done.
  destruct H. by apply Hk.
Qed.

Lemma process_product_refused a b product :
  products a = products b → initial_count a = initial_count b →
  same_outcome (process_product w (with_details true g) a product)
               (process_product w (with_details false g) b product).
Proof.
  intros Hp Hi. unfold process_product.
  destruct (subscript product "productCode") as [c| |]; cbn [bind]; [|done|done].
  destruct (as_key c) as [code| |]; cbn [bind]; [|done|done].
  rewrite Hp. destruct (Dict.mem code (products b)); [done|].
  destruct (process_images w product) as [images| |]; cbn [bind]; [|done|done].
  destruct product as [| | | | |d]; try done.
  set (d' := Dict.pop_all listing_drop_keys _). clearbody d'.
  cbn [product_details with_details].
  unfold get_product_details. rewrite refused. cbn [bind fst snd].
  unfold store, sent. cbn [same_outcome products initial_count Dict.update fold_left].
  by rewrite Hp.
Qed.

Lemma process_products_refused items a b :
  products a = products b → initial_count a = initial_count b →
  same_outcome (process_products w (with_details true g) a items)
               (process_products w (with_details false g) b items).
Proof.
  revert a b. induction items as [|product items IH]; intros a b Hp Hi.
  - done.
  - cbn [process_products]. apply same_outcome_bind.
    + by apply process_product_refused.
    + apply IH.
Qed.

Lemma walk_refused fuel category lang page nop a b :
  products a = products b → initial_count a = initial_count b →
  same_outcome (walk fuel w (with_details true g) category lang page nop a)
               (walk fuel w (with_details false g) category lang page nop b).
Proof.
  revert page nop a b. induction fuel as [|fuel IH]; intros page nop a b Hp Hi.
  - cbn [walk]. destruct (int_lt page nop) as [more| |]; cbn [bind]; [|done|done].
    by destruct more.
  - cbn [walk]. destruct (int_lt page nop) as [more| |]; cbn [bind]; [|done|done].
    destruct more; cbn [negb]; [|done].
    destruct (get w _) as [data|]; [|done].
    destruct (subscript data "numberOfPages") as [n| |]; cbn [bind]; [|done|done].
    destruct (subscript data "products") as [l| |]; cbn [bind]; [|done|done].
    destruct (subscript l "items") as [items| |]; cbn [bind]; [|done|done].
    destruct (py_len items) as [count| |]; cbn [bind]; [|done|done].
    destruct (Nat.eqb count 0); [done|].
    destruct (py_iter items) as [elements| |]; cbn [bind]; [|done|done].
    apply same_outcome_bind.
    + by apply process_products_refused.
    + apply IH.
Qed.

Lemma get_products_refused fuel category lang a b :
  products a = products b → initial_count a = initial_count b →
  same_outcome (get_products fuel w (with_details true g) category lang a)
               (get_products fuel w (with_details false g) category lang b).
Proof.
  intros Hp Hi. unfold get_products. cbn [categories with_details].
  destruct (negb _); [done|]. by apply walk_refused.
Qed.

Lemma crawl_categories_refused fuel lang cats a b :
  products a = products b → initial_count a = initial_count b →
  same_outcome (crawl_categories fuel w (with_details true g) lang cats a)
               (crawl_categories fuel w (with_details false g) lang cats b).
Proof.
  revert a b. induction cats as [|category cats IH]; intros a b Hp Hi.
  - done.
  - cbn [crawl_categories]. apply same_outcome_bind.
    + by apply get_products_refused.
    + apply IH.
Qed.

Lemma crawl_refused fuel langs a b :
  products a = products b → initial_count a = initial_count b →
  same_outcome (crawl fuel w (with_details true g) langs a)
               (crawl fuel w (with_details false g) langs b).
Proof.
  revert a b. induction langs as [|lang langs IH]; intros a b Hp Hi.
  - done.
  - cbn [crawl]. apply same_outcome_bind.
    + cbn [categories with_details]. by apply crawl_categories_refused.
    + apply IH.
Qed.

End DetailsRefused.

(** X18. A refused detail fetch loses no product.  When the detail
    endpoint answers no request with a JSON object or list, a new product
    is stored with details on exactly as with details off, at the price of
    one request for its details; and a whole crawl with details on ends as
    the crawl with details off does: with the same exception, or with the
    same store. *)
Theorem refused_details_change_nothing (w : world) (g : gucci) :
  (∀ code, get w (product_details_url code) = None) →
  (∀ st product code,
     subscript product "productCode" = Ok (JStr code) →
     Dict.mem code (products st) = false →
     process_product w (with_details true g) st product
     = let! st' := process_product w (with_details false g) st product in
       Ok (sent (product_details_url code) st'))
  ∧ (∀ fuel langs st,
       same_outcome (crawl fuel w (with_details true g) langs st)
                    (crawl fuel w (with_details false g) langs st)).
Proof.
  intros Hrefused. split.
  - intros st product code Hcode Hmem. unfold process_product.
    rewrite Hcode. cbn [bind as_key]. rewrite Hmem.
    destruct (process_images w product) as [images| |]; cbn [bind]; [|done|done].
    destruct product as [| | | | |d]; try done.
    set (d' := Dict.pop_all listing_drop_keys _). clearbody d'.
    cbn [product_details with_details bind].
    unfold get_product_details. rewrite Hrefused. cbn [bind fst snd].
    reflexivity.
  - intros fuel langs st. by apply crawl_refused.
Qed.

Lemma refused_details_change_nothing_witness :
  same_outcome
    (crawl 5 listing_only (with_details true men_with_details) ["us/en"]
       empty_state)
    (crawl 5 listing_only (with_details false men_with_details) ["us/en"]
       empty_state).
Proof.
  apply (proj2 (refused_details_change_nothing listing_only men_with_details
                  ltac:(intros code;
                        destruct (get listing_only (product_details_url code))
                          as [data|] eqn:Hget; [|reflexivity];
                        apply serving_get in Hget;
                        repeat (apply elem_of_cons in Hget as [Heq|Hget];
                                [apply (f_equal fst) in Heq; cbn [fst] in Heq;
                                 apply (f_equal is_listing_url) in Heq;
                                 rewrite is_listing_products_url in Heq;
                                 discriminate Heq|]);
                        by apply elem_of_nil in Hget))).
Defined.

Section Renaming.

Implicit Types (m : dict) (k : string).

(** Nothing kept is renamed onto [k']: the comprehension leaves no value
    there. *)
Lemma last_renamed_none k' m :
  (∀ j, in_list j details_drop_keys = false → rename_get rename j = k' →
        Dict.lookup j m = None) →
  last_renamed k' m = None.
Proof.
  induction m as [|[j x] m IH]; [done|]. intros Hnone.
  cbn [last_renamed]. rewrite IH.
  - destruct (in_list j details_drop_keys) eqn:Hdrop; [done|]. cbn [negb andb].
    destruct (String.eqb_spec (rename_get rename j) k') as [Heq|]; [|done].
    specialize (Hnone j Hdrop Heq). cbn [Dict.lookup] in Hnone.
    by rewrite String.eqb_refl in Hnone.
  - intros i Hi Hri. specialize (Hnone i Hi Hri). cbn [Dict.lookup] in Hnone.
    by destruct (String.eqb j i).
Qed.

(** A key renamed onto one that is no target of the table is that key. *)
Lemma rename_get_plain j k :
  k ∉ map snd rename → rename_get rename j = k → j = k.
Proof.
  intros Hk Heq. destruct (rename_get_cases j) as [[Hid _]|Htgt].
  - congruence.
  - by rewrite Heq in Htgt.
Qed.

Lemma rename_get_id k : k ∉ map fst rename → rename_get rename k = k.
Proof.
  unfold rename. cbn [rename_get map fst]. intros Hk.
  repeat match goal with
         | |- context [String.eqb ?a k] =>
             destruct (String.eqb_spec a k) as [?|?];
             [exfalso; apply Hk; subst k; apply list_elem_of_In; simpl; auto 10|]
         end.
  done.
Qed.

(** The pairs of the table: old names and new names do not overlap, none
    of them is dropped, and only the old name is renamed onto the new. *)
Lemma rename_pair old new :
  (old, new) ∈ rename →
  rename_get rename old = new
  ∧ in_list old details_drop_keys = false
  ∧ in_list new details_drop_keys = false
  ∧ new ∉ map fst rename
  ∧ ∀ j, rename_get rename j = new → j = old ∨ j = new.
Proof.
  unfold rename. intros Hin.
  repeat (apply elem_of_cons in Hin as [[= -> ->]|Hin];
          [split; [reflexivity|]; split; [reflexivity|]; split; [reflexivity|];
           split;
           [rewrite list_elem_of_In; simpl; intuition discriminate
           |intros j; cbn [rename_get];
            repeat match goal with
                   | |- context [String.eqb ?a j] =>
                       destruct (String.eqb_spec a j) as [?|?];
                       [first [by left | intros; discriminate]|]
                   end;
            by right]|]).
  by apply elem_of_nil in Hin.
Qed.

(** The comprehension, key by key, on a record that does not carry both
    names of a pair. *)
Lemma last_renamed_plain k m :
  dict_wf m →
  in_list k details_drop_keys = false →
  k ∉ map fst rename → k ∉ map snd rename →
  last_renamed k m = Dict.lookup k m.
Proof.
  intros Hwf Hdrop Hsrc Htgt.
  destruct (Dict.lookup k m) as [v|] eqn:Hk.
  - rewrite <- (rename_get_id k Hsrc) at 1.
    apply last_renamed_only; try done.
    intros j Hj Hren. rewrite (rename_get_id k Hsrc) in Hren.
    by apply rename_get_plain in Hren.
  - apply last_renamed_none. intros j _ Hren.
    by apply rename_get_plain in Hren as ->.
Qed.

Lemma last_renamed_moved old new m :
  dict_wf m → (old, new) ∈ rename →
  Dict.lookup new m = None →
  last_renamed new m = Dict.lookup old m.
Proof.
  intros Hwf (Hren & Hdo & Hdn & Hns & Honly)%rename_pair Hnew.
  destruct (Dict.lookup old m) as [v|] eqn:Hold.
  - rewrite <- Hren at 1. apply last_renamed_only; try done.
    intros j Hj Hj'. rewrite Hren in Hj'.
    by destruct (Honly j Hj') as [->| ->].
  - apply last_renamed_none. intros j _ Hj.
    by destruct (Honly j Hj) as [->| ->].
Qed.

Lemma last_renamed_stays old new m :
  dict_wf m → (old, new) ∈ rename →
  Dict.lookup old m = None →
  last_renamed new m = Dict.lookup new m.
Proof.
  intros Hwf (Hren & Hdo & Hdn & Hns & Honly)%rename_pair Hold.
  destruct (Dict.lookup new m) as [v|] eqn:Hnew.
  - rewrite <- (rename_get_id new Hns) at 1.
    apply last_renamed_only; try done.
    intros j Hj Hj'. rewrite (rename_get_id new Hns) in Hj'.
    by destruct (Honly j Hj') as [->| ->].
  - apply last_renamed_none. intros j _ Hj.
    by destruct (Honly j Hj) as [->| ->].
Qed.

End Renaming.

(** X19. The fields of an enriched record.  Let [m] be the detail record
    after the translations of the target language are merged in, with
    distinct keys.  Then the enricher returns a record in which a field
    that is neither dropped nor named in the rename table has its value of
    [m]; the new name of a pair has the value [m] holds under the old name
    when [m] has no field of the new name, and keeps its own when [m] has
    no field of the old name. *)
Theorem enrich_fields (target : string) (d m : dict) (ts : list json) :
  dict_wf m →
  py_iter (default (JList []) (Dict.lookup "translations" d)) = Ok ts →
  merge_translations target d ts = Ok m →
  ∃ r,
    enrich target (JObj d) = Ok r
    ∧ (∀ k, k ∉ details_drop_keys → k ∉ map fst rename → k ∉ map snd rename →
            Dict.lookup k r = Dict.lookup k m)
    ∧ (∀ old new, (old, new) ∈ rename → Dict.lookup new m = None →
                  Dict.lookup new r = Dict.lookup old m)
    ∧ (∀ old new, (old, new) ∈ rename → Dict.lookup old m = None →
                  Dict.lookup new r = Dict.lookup new m).
Proof.
  intros Hwf Hts Hm. cbn [enrich]. rewrite Hts. cbn [bind]. rewrite Hm.
  cbn [bind]. eexists. split; [reflexivity|]. split; [|split].
  - intros k Hdrop Hsrc Htgt.
    rewrite lookup_pop_all_other by done. rewrite lookup_rename_and_drop.
    apply last_renamed_plain; try done.
    destruct (in_list k details_drop_keys) eqn:Hk; [|done].
    by apply in_list_elem_of in Hk.
  - intros old new Hin Hnew.
    rewrite lookup_pop_all_other by (by apply rename_pair in Hin as (_&_&_&?&_)).
    rewrite lookup_rename_and_drop. by apply last_renamed_moved.
  - intros old new Hin Hold.
    rewrite lookup_pop_all_other by (by apply rename_pair in Hin as (_&_&_&?&_)).
    rewrite lookup_rename_and_drop. by eapply last_renamed_stays.
Qed.

Lemma enrich_fields_witness :
  ∃ r,
    enrich "en" (JObj detail_plain) = Ok r
    ∧ (∀ k, k ∉ details_drop_keys → k ∉ map fst rename → k ∉ map snd rename →
            Dict.lookup k r = Dict.lookup k (Dict.update detail_plain translated))
    ∧ (∀ old new, (old, new) ∈ rename →
                  Dict.lookup new (Dict.update detail_plain translated) = None →
                  Dict.lookup new r
                  = Dict.lookup old (Dict.update detail_plain translated))
    ∧ (∀ old new, (old, new) ∈ rename →
                  Dict.lookup old (Dict.update detail_plain translated) = None →
                  Dict.lookup new r
                  = Dict.lookup new (Dict.update detail_plain translated)).
Proof.
  apply (enrich_fields "en" detail_plain (Dict.update detail_plain translated)
           [JObj translated]).
  - apply (bool_decide_unpack _). vm_compute. exact I.
  - reflexivity.
  - reflexivity.
Defined.

